(** * The bisection root finder of RootFinding_part1.ipynb

    The notebook defines one algorithm,

<<
    def bisection(F, a, b, n):
        for i in range(n):
            h = (a + b) / 2
            if F(a)*F(h) < 0:
                b=h
            else:
                a=h
        return h
>>

    which is embedded below.  The function is duck-typed: it only adds two
    numbers, halves the sum, multiplies two values of [F] and compares the
    product with zero.  These four operations form the interface [Number];
    the function is written once over it and read at three carriers:
    binary64 floats (what the notebook runs), rationals (Python's
    [Fraction], exact and executable) and the real numbers (exact
    arithmetic).  A property is stated at every carrier where it holds
    at every carrier; where it holds in exact arithmetic only, it is
    stated over the reals and the binary64 run that breaks it is given
    beside it. *)

From Stdlib Require Import ZArith List Bool Lia.
From Stdlib Require Import QArith Qreduction.
From Stdlib Require Import Reals Lra Ranalysis5.
From Stdlib Require Import Floats.
Import ListNotations.

Set Implicit Arguments.

(** ** The numeric interface used by the code *)

Class Number (num : Type) : Type := {
  nadd  : num -> num -> num;      (* x + y  *)
  nmul  : num -> num -> num;      (* x * y  *)
  nhalf : num -> num;             (* x / 2  *)
  nneg  : num -> bool             (* x < 0  *)
}.

Declare Scope num_scope.
Delimit Scope num_scope with num.
Notation "x + y" := (nadd x y) : num_scope.
Notation "x * y" := (nmul x y) : num_scope.

(** ** Outcomes of a call *)

Inductive exn : Type :=
| UnboundLocalError.

Inductive result (A : Type) : Type :=
| Ok (v : A)
| Raise (e : exn).
Arguments Ok {A} v.
Arguments Raise {A} e.

(** ** The algorithm *)

Section Algorithm.
Context {num : Type} `{Number num}.
Local Open Scope num_scope.

(** The local variables of [bisection].  [h] is unbound until the loop
    body has run once. *)
Record locals : Type := Locals {
  loc_a : num;
  loc_b : num;
  loc_h : option num
}.

(** Calls of the caller's function are the only visible effect.  A
    computation threads the log of the arguments [F] was called with,
    oldest first. *)
Definition M (A : Type) : Type := list num -> A * list num.

Definition ret {A} (x : A) : M A := fun log => (x, log).

Definition bind {A B} (m : M A) (k : A -> M B) : M B :=
  fun log => let (x, log') := m log in k x log'.

Definition call (F : num -> num) (x : num) : M num :=
  fun log => (F x, log ++ [x]).

Notation "x <- m ;; k" := (bind m (fun x => k))
  (at level 61, m at next level, right associativity).

(** [h = (a + b) / 2] *)
Definition midpoint (s : locals) : num := nhalf (loc_a s + loc_b s).

(** One pass through the loop body.  Python evaluates [F(a)] before
    [F(h)]. *)
Definition body (F : num -> num) (s : locals) : M locals :=
  let h := midpoint s in
  fa <- call F (loc_a s) ;;
  fh <- call F h ;;
  if nneg (fa * fh)
  then ret {| loc_a := loc_a s; loc_b := h; loc_h := Some h |}
  else ret {| loc_a := h; loc_b := loc_b s; loc_h := Some h |}.

(** [for i in range(k)] with a body that does not read [i]. *)
Fixpoint for_range (k : nat) (c : locals -> M locals) (s : locals)
  : M locals :=
  match k with
  | O => ret s
  | S k' => s' <- c s ;; for_range k' c s'
  end.

(** [return h]: reading an unbound local raises. *)
Definition return_h (s : locals) : result num :=
  match loc_h s with
  | Some v => Ok v
  | None => Raise UnboundLocalError
  end.

Definition entry (a b : num) : locals :=
  {| loc_a := a; loc_b := b; loc_h := None |}.

(** [range(n)] is empty when [n <= 0]. *)
Definition bisection (F : num -> num) (a b : num) (n : Z)
  : M (result num) :=
  s <- for_range (Z.to_nat n) (body F) (entry a b) ;;
  ret (return_h s).

(** *** Observations of a run *)

(** The locals after [k] passes through the loop body, started at [s]. *)
Definition run_from (F : num -> num) (k : nat) (s : locals) : locals :=
  fst (for_range k (body F) s []).

(** The arguments [F] is called with during these [k] passes, in order. *)
Definition evals_from (F : num -> num) (k : nat) (s : locals) : list num :=
  snd (for_range k (body F) s []).

(** What a call returns or raises. *)
Definition estimate (F : num -> num) (a b : num) (n : Z) : result num :=
  fst (bisection F a b n []).

(** The arguments [F] was called with during a call, in order. *)
Definition evaluations (F : num -> num) (a b : num) (n : Z) : list num :=
  snd (bisection F a b n []).

(** The locals after [k] passes through the loop body. *)
Definition state_after (F : num -> num) (a b : num) (k : nat) : locals :=
  run_from F k (entry a b).

(** The value part of one pass. *)
Definition step (F : num -> num) (s : locals) : locals :=
  fst (body F s []).

End Algorithm.

Arguments locals num : clear implicits.

(** ** Carriers *)

(** Binary64, as CPython's [float]. *)
#[export] Instance float_Number : Number float := {
  nadd := PrimFloat.add;
  nmul := PrimFloat.mul;
  nhalf x := PrimFloat.div x 2%float;
  nneg x := PrimFloat.ltb x 0%float
}.

(** Rationals in lowest terms, as Python's [fractions.Fraction]. *)
#[export] Instance Q_Number : Number Q := {
  nadd x y := Qred (x + y);
  nmul x y := Qred (x * y);
  nhalf x := Qred (x / 2);
  nneg x := if Qlt_le_dec x 0 then true else false
}.

(** Exact real arithmetic. *)
#[export] Instance R_Number : Number R := {
  nadd := Rplus;
  nmul := Rmult;
  nhalf x := (x / 2)%R;
  nneg x := if Rlt_dec x 0 then true else false
}.

(** ** Vocabulary of the properties, over the reals *)

Section RealVocabulary.
Local Open Scope R_scope.

(** Signed width [b - a] of the active interval. *)
Definition width (s : locals R) : R := loc_b s - loc_a s.

(** The bracketing invariant: [F(a)] and [F(b)] have strictly opposite
    signs. *)
Definition brackets (F : R -> R) (s : locals R) : Prop :=
  F (loc_a s) * F (loc_b s) < 0.

(** None of the midpoints computed by the first [k] passes is an exact
    zero of [F]. *)
Definition no_zero_hit (F : R -> R) (a b : R) (k : nat) : Prop :=
  forall j : nat, (j < k)%nat -> F (midpoint (state_after F a b j)) <> 0.

(** The same locals with the two endpoints exchanged. *)
Definition mirror (s : locals R) : locals R :=
  {| loc_a := loc_b s; loc_b := loc_a s; loc_h := loc_h s |}.

(** [F] restricted to [[a,b]] is continuous. *)
Definition continuous_on (F : R -> R) (a b : R) : Prop :=
  forall x : R, a <= x <= b ->
  forall eps : R, 0 < eps ->
  exists delta : R, 0 < delta /\
    forall y : R, a <= y <= b -> Rabs (y - x) < delta ->
    Rabs (F y - F x) < eps.

(** [r] is the one zero of [F] in [[a,b]]. *)
Definition single_root (F : R -> R) (a b r : R) : Prop :=
  a <= r <= b /\ F r = 0 /\
  forall x : R, a <= x <= b -> F x = 0 -> x = r.

(** The nearest point of [[a,b]]. *)
Definition clamp (a b x : R) : R := Rmax a (Rmin x b).

(** The endpoints are distinct and lie in [[lo,hi]]. *)
Definition inside (lo hi : R) (s : locals R) : Prop :=
  loc_a s <> loc_b s /\
  lo <= Rmin (loc_a s) (loc_b s) /\ Rmax (loc_a s) (loc_b s) <= hi.

(** The active interval is an ordered bracket within [[a,b]]. *)
Definition sub_bracket (F : R -> R) (a b : R) (s : locals R) : Prop :=
  a <= loc_a s /\ loc_a s < loc_b s /\ loc_b s <= b /\ brackets F s.

(** The active interval is ordered and contains [r]. *)
Definition encloses (r : R) (s : locals R) : Prop :=
  loc_a s < loc_b s /\ loc_a s <= r <= loc_b s.

End RealVocabulary.

(** ** The notebook's own runs *)

Module Notebook.

(** [def func(x): return (x**2)-3], on exact numbers, where the square
    is the product. *)
Definition func_Q (x : Q) : Q := Qred (x * x - 3).
Definition func_R (x : R) : R := (x * x - 3)%R.

End Notebook.

(** ** Small inputs used to exercise the properties *)

Module Probe.

(** [lambda x: x], with its zero at [0]. *)
Definition identity (x : R) : R := x.

(** [lambda x: 1], never zero. *)
Definition one (x : R) : R := 1%R.

(** The same two functions on fractions. *)
Definition identity_Q (x : Q) : Q := x.
Definition one_Q (x : Q) : Q := 1%Q.

(** Three functions a caller may pass on binary64:
    [lambda x: x], [lambda x: x*x - 3] and [lambda x: x * 2.0**-600]. *)
Definition identity_float (x : float) : float := x.
Definition square_minus_three (x : float) : float := (x * x - 3)%float.
Definition tiny_slope (x : float) : float := (x * 0x1p-600)%float.

End Probe.

(** ** The other functions of the notebook *)

Module Callers.
Local Open Scope R_scope.

(** [def func2(x): return x**4 - 3*x**3 + 2*x**2 -3*x], on the reals. *)
Definition func2_R (x : R) : R := x ^ 4 - 3 * x ^ 3 + 2 * x ^ 2 - 3 * x.

Section Constants.
(** [h=const.h], [c=const.c], [k=const.k] come from [scipy.constants];
    the notebook does not hold their values. *)
Variables h c k : R.

(** [def planck(lam,T)] *)
Definition planck (lam T : R) : R :=
  let numer := 2 * h * c * c / (lam ^ 5) in
  let denom := exp ((h * c) / (lam * k * T)) - 1 in
  numer / denom.

(** [def planckdiff(l,T)], the expression pasted from sympy. *)
Definition planckdiff (l T : R) : R :=
  c ^ 2 * h *
  (- 10 / (l ^ 6 * (exp (c * h / (T * k * l)) - 1))
   + 2 * c * h * exp (c * h / (T * k * l))
     / (T * k * l ^ 7 * (exp (c * h / (T * k * l)) - 1) ^ 2)).

(** [T=5800], read by [planckdiff2] as a global. *)
Definition T : R := 5800.

(** [def planckdiff2(l)], the same expression written out again. *)
Definition planckdiff2 (l : R) : R :=
  c ^ 2 * h *
  (- 10 / (l ^ 6 * (exp (c * h / (T * k * l)) - 1))
   + 2 * c * h * exp (c * h / (T * k * l))
     / (T * k * l ^ 7 * (exp (c * h / (T * k * l)) - 1) ^ 2)).

End Constants.
End Callers.

(** ** Further vocabulary *)

Section MoreVocabulary.
Local Open Scope R_scope.

(** No two points of [[lo,hi]] give [F] values of strictly opposite
    signs. *)
Definition no_sign_change (F : R -> R) (lo hi : R) : Prop :=
  forall x y : R, lo <= x <= hi -> lo <= y <= hi -> ~ F x * F y < 0.

(** [F] and [G] see the same sign changes between points of [[lo,hi]]. *)
Definition same_sign_changes (F G : R -> R) (lo hi : R) : Prop :=
  forall x y : R, lo <= x <= hi -> lo <= y <= hi ->
  (F x * F y < 0 <-> G x * G y < 0).

(** The real number a binary64 value stands for: [m * 2^e] with its sign
    when finite, none for an infinity or a NaN. *)
Definition float_to_R (x : float) : option R :=
  match Prim2SF x with
  | S754_zero _ => Some 0
  | S754_finite s m e =>
      Some ((if s then -1 else 1) * IZR (Zpos m) * powerRZ 2 e)
  | S754_infinity _ | S754_nan => None
  end.

(** Apply a function to a returned value. *)
Definition result_map {A B : Type} (f : A -> B) (r : result A) : result B :=
  match r with
  | Ok v => Ok (f v)
  | Raise e => Raise e
  end.

End MoreVocabulary.

(** ** How a run unfolds, at any carrier *)

Section Runs.
Context {num : Type} `{Number num}.
Variable F : num -> num.

Lemma step_unfold (s : locals num) :
  step F s =
  if nneg (nmul (F (loc_a s)) (F (midpoint s)))
  then {| loc_a := loc_a s; loc_b := midpoint s;
          loc_h := Some (midpoint s) |}
  else {| loc_a := midpoint s; loc_b := loc_b s;
          loc_h := Some (midpoint s) |}.
Proof.
  unfold step, body, bind, call, ret; cbn.
  destruct (nneg _); reflexivity.
Qed.

(** A pass calls [F] at [a], then at [h], whatever was logged before. *)
Lemma body_run (s : locals num) (log : list num) :
  body F s log = (step F s, log ++ [loc_a s; midpoint s]).
Proof.
  unfold step, body, bind, call, ret; cbn.
  rewrite <- app_assoc; cbn.
  destruct (nneg _); reflexivity.
Qed.

Lemma for_range_run (k : nat) (s : locals num) (log : list num) :
  for_range k (body F) s log = (run_from F k s, log ++ evals_from F k s).
Proof.
  revert s log; induction k as [|k IH]; intros s log.
  - unfold run_from, evals_from; cbn. now rewrite app_nil_r.
  - unfold run_from, evals_from; cbn; unfold bind.
    rewrite !body_run, IH, (IH _ ([] ++ _)); cbn.
    now rewrite <- app_assoc.
Qed.

Lemma run_from_0 (s : locals num) : run_from F 0 s = s.
Proof. reflexivity. Qed.

Lemma run_from_S (k : nat) (s : locals num) :
  run_from F (S k) s = run_from F k (step F s).
Proof.
  unfold run_from at 1; cbn; unfold bind.
  now rewrite body_run, for_range_run.
Qed.

Lemma run_from_add (j k : nat) (s : locals num) :
  run_from F (j + k) s = run_from F k (run_from F j s).
Proof.
  revert s; induction j as [|j IH]; intros s; cbn [Nat.add].
  - reflexivity.
  - now rewrite !run_from_S, IH.
Qed.

Lemma run_from_last (k : nat) (s : locals num) :
  run_from F (S k) s = step F (run_from F k s).
Proof.
  replace (S k) with (k + 1)%nat by lia.
  now rewrite run_from_add, run_from_S, run_from_0.
Qed.

Lemma evals_from_0 (s : locals num) : evals_from F 0 s = [].
Proof. reflexivity. Qed.

Lemma evals_from_S (k : nat) (s : locals num) :
  evals_from F (S k) s =
  loc_a s :: midpoint s :: evals_from F k (step F s).
Proof.
  unfold evals_from at 1; cbn; unfold bind.
  now rewrite body_run, for_range_run.
Qed.

Lemma evals_from_length (k : nat) (s : locals num) :
  length (evals_from F k s) = (2 * k)%nat.
Proof.
  revert s; induction k as [|k IH]; intros s.
  - reflexivity.
  - rewrite evals_from_S; cbn [length]; rewrite IH; lia.
Qed.

Lemma flat_map_map {A B C : Type} (f : B -> list C) (g : A -> B)
  (l : list A) :
  flat_map f (map g l) = flat_map (fun x => f (g x)) l.
Proof.
  induction l as [|x l IH]; cbn; [reflexivity | now rewrite IH].
Qed.

(** The log pairs up [a] and [h] of each pass, in order. *)
Lemma evals_from_passes (k : nat) (s : locals num) :
  evals_from F k s =
  flat_map (fun j => [loc_a (run_from F j s); midpoint (run_from F j s)])
           (seq 0 k).
Proof.
  revert s; induction k as [|k IH]; intros s.
  - reflexivity.
  - rewrite evals_from_S, IH. cbn [seq flat_map app].
    rewrite run_from_0, <- seq_shift, flat_map_map.
    do 2 f_equal. apply flat_map_ext; intros j.
    now rewrite run_from_S.
Qed.

Lemma step_endpoint (s : locals num) :
  loc_a (step F s) = midpoint s \/ loc_b (step F s) = midpoint s.
Proof.
  rewrite step_unfold; destruct (nneg _); cbn; [now right | now left].
Qed.

Lemma bisection_run (a b : num) (n : Z) (log : list num) :
  bisection F a b n log =
  (return_h (state_after F a b (Z.to_nat n)),
   log ++ evals_from F (Z.to_nat n) (entry a b)).
Proof.
  unfold bisection, bind, ret, state_after.
  now rewrite for_range_run.
Qed.

Lemma step_h (s : locals num) : loc_h (step F s) = Some (midpoint s).
Proof. rewrite step_unfold; destruct (nneg _); reflexivity. Qed.

Lemma state_after_0 (a b : num) : state_after F a b 0 = entry a b.
Proof. reflexivity. Qed.

Lemma state_after_S (a b : num) (k : nat) :
  state_after F a b (S k) = step F (state_after F a b k).
Proof. apply run_from_last. Qed.

Lemma estimate_unfold (a b : num) (n : Z) :
  estimate F a b n = return_h (state_after F a b (Z.to_nat n)).
Proof.
  unfold estimate, bisection, bind, ret, state_after.
  now rewrite for_range_run.
Qed.

Lemma evaluations_unfold (a b : num) (n : Z) :
  evaluations F a b n = evals_from F (Z.to_nat n) (entry a b).
Proof.
  unfold evaluations, bisection, bind, ret.
  now rewrite for_range_run.
Qed.

(** After at least one pass the function returns the last midpoint. *)
Lemma estimate_last (a b : num) (k : nat) :
  estimate F a b (Z.of_nat (S k)) = Ok (midpoint (state_after F a b k)).
Proof.
  rewrite estimate_unfold, Nat2Z.id, state_after_S.
  unfold return_h. now rewrite step_h.
Qed.

Lemma estimate_pos (a b : num) (n : Z) :
  (1 <= n)%Z ->
  estimate F a b n = Ok (midpoint (state_after F a b (Z.to_nat (n - 1)))).
Proof.
  intros Hn.
  replace n with (Z.of_nat (S (Z.to_nat (n - 1)))) at 1 by lia.
  apply estimate_last.
Qed.

End Runs.

(** ** Exact arithmetic: the loop over the reals *)

Section RealRuns.
Variable F : R -> R.
Local Open Scope R_scope.

Lemma nneg_true (x : R) : x < 0 -> nneg x = true.
Proof. intros Hx; cbn; destruct (Rlt_dec x 0); [reflexivity | tauto]. Qed.

Lemma nneg_false (x : R) : ~ x < 0 -> nneg x = false.
Proof. intros Hx; cbn; destruct (Rlt_dec x 0); [tauto | reflexivity]. Qed.

Lemma midpoint_R (s : locals R) : midpoint s = (loc_a s + loc_b s) / 2.
Proof. reflexivity. Qed.

(** The [if] branch: [b = h]. *)
Lemma step_then (s : locals R) (h : R) :
  midpoint s = h -> F (loc_a s) * F h < 0 ->
  step F s = {| loc_a := loc_a s; loc_b := h; loc_h := Some h |}.
Proof.
  intros <- Hlt. rewrite step_unfold.
  change (nmul ?x ?y) with (x * y). now rewrite nneg_true.
Qed.

(** The [else] branch: [a = h]. *)
Lemma step_else (s : locals R) (h : R) :
  midpoint s = h -> ~ F (loc_a s) * F h < 0 ->
  step F s = {| loc_a := h; loc_b := loc_b s; loc_h := Some h |}.
Proof.
  intros <- Hge. rewrite step_unfold.
  change (nmul ?x ?y) with (x * y). now rewrite nneg_false.
Qed.

Lemma step_cases (s : locals R) :
  (F (loc_a s) * F (midpoint s) < 0 /\
   step F s = {| loc_a := loc_a s; loc_b := midpoint s;
                 loc_h := Some (midpoint s) |}) \/
  (~ F (loc_a s) * F (midpoint s) < 0 /\
   step F s = {| loc_a := midpoint s; loc_b := loc_b s;
                 loc_h := Some (midpoint s) |}).
Proof.
  destruct (Rlt_dec (F (loc_a s) * F (midpoint s)) 0) as [Hlt | Hge].
  - left; split; [assumption | now apply step_then].
  - right; split; [assumption | now apply step_else].
Qed.

(** Either branch halves the signed width. *)
Lemma step_width (s : locals R) : width (step F s) = width s / 2.
Proof.
  destruct (step_cases s) as [[_ ->] | [_ ->]];
    unfold width; cbn [loc_a loc_b]; rewrite midpoint_R; lra.
Qed.

Lemma state_width (a b : R) (k : nat) :
  width (state_after F a b k) = (b - a) / 2 ^ k.
Proof.
  induction k as [|k IH].
  - rewrite state_after_0; unfold width; cbn; lra.
  - rewrite state_after_S, step_width, IH; cbn [pow].
    field. apply pow_nonzero; lra.
Qed.

(** A sign analysis used by both branches. *)
Lemma opposite_signs (x y z : R) :
  x * z < 0 -> y <> 0 -> ~ x * y < 0 -> y * z < 0.
Proof.
  intros Hxz Hy Hxy.
  destruct (Rtotal_order x 0) as [Hx | [Hx | Hx]];
  destruct (Rtotal_order y 0) as [Hy' | [Hy' | Hy']];
  destruct (Rtotal_order z 0) as [Hz | [Hz | Hz]];
    try (subst; lra); try nra.
Qed.

(** One pass keeps the bracket, unless the midpoint is an exact zero. *)
Lemma step_brackets (s : locals R) :
  brackets F s -> F (midpoint s) <> 0 -> brackets F (step F s).
Proof.
  unfold brackets; intros Hs Hh.
  destruct (step_cases s) as [[Hlt ->] | [Hge ->]]; cbn [loc_a loc_b].
  - assumption.
  - now apply opposite_signs with (x := F (loc_a s)).
Qed.

Lemma run_brackets (a b : R) (k : nat) :
  F a * F b < 0 -> no_zero_hit F a b k -> brackets F (state_after F a b k).
Proof.
  intros Hab; induction k as [|k IH]; intros Hnz.
  - exact Hab.
  - rewrite state_after_S. apply step_brackets.
    + apply IH. intros j Hj; apply Hnz; lia.
    + apply Hnz; lia.
Qed.

(** An exact zero at the midpoint falls into the [else] branch. *)
Lemma step_zero (s : locals R) :
  F (midpoint s) = 0 ->
  step F s = {| loc_a := midpoint s; loc_b := loc_b s;
                loc_h := Some (midpoint s) |}.
Proof.
  intros Hz. apply step_else; [reflexivity|]. rewrite Hz; lra.
Qed.

(** *** The estimate stays between the endpoints *)

Lemma midpoint_inside (lo hi : R) (s : locals R) :
  inside lo hi s -> lo < midpoint s < hi.
Proof.
  unfold inside; rewrite midpoint_R.
  unfold Rmin, Rmax; destruct (Rle_dec (loc_a s) (loc_b s)); lra.
Qed.

Lemma step_inside (lo hi : R) (s : locals R) :
  inside lo hi s -> inside lo hi (step F s).
Proof.
  intros Hs. pose proof (midpoint_inside Hs) as Hm.
  revert Hs Hm; unfold inside.
  destruct (step_cases s) as [[_ ->] | [_ ->]]; cbn [loc_a loc_b];
    rewrite midpoint_R; unfold Rmin, Rmax;
    repeat destruct (Rle_dec _ _); lra.
Qed.

Lemma run_inside (lo hi : R) (k : nat) (s : locals R) :
  inside lo hi s -> inside lo hi (run_from F k s).
Proof.
  revert s; induction k as [|k IH]; intros s Hs.
  - exact Hs.
  - rewrite run_from_S. apply IH. now apply step_inside.
Qed.

Lemma entry_inside (a b : R) :
  a <> b -> inside (Rmin a b) (Rmax a b) (entry a b).
Proof. intros Hab; unfold inside; cbn; lra. Qed.

(** *** Exchanging the endpoints *)

Lemma midpoint_mirror (s : locals R) : midpoint (mirror s) = midpoint s.
Proof. rewrite !midpoint_R; cbn; lra. Qed.

Lemma same_signs (x y z : R) : x * z < 0 -> x * y < 0 -> ~ z * y < 0.
Proof.
  intros Hxz Hxy Hzy.
  destruct (Rtotal_order x 0) as [Hx | [Hx | Hx]];
  destruct (Rtotal_order y 0) as [Hy | [Hy | Hy]];
  destruct (Rtotal_order z 0) as [Hz | [Hz | Hz]];
    try (subst; lra); try nra.
Qed.

Lemma step_mirror (s : locals R) :
  brackets F s -> F (midpoint s) <> 0 ->
  step F (mirror s) = mirror (step F s).
Proof.
  unfold brackets; intros Hs Hh.
  destruct (step_cases s) as [[Hlt ->] | [Hge ->]]; unfold mirror at 2;
    cbn [loc_a loc_b loc_h].
  - rewrite (@step_else (mirror s) (midpoint s));
      [reflexivity | apply midpoint_mirror |].
    cbn [mirror loc_a]. now apply same_signs with (x := F (loc_a s)).
  - rewrite (@step_then (mirror s) (midpoint s));
      [reflexivity | apply midpoint_mirror |].
    cbn [mirror loc_a]. rewrite Rmult_comm.
    now apply opposite_signs with (x := F (loc_a s)).
Qed.

Lemma run_mirror (a b : R) (k : nat) :
  F a * F b < 0 -> no_zero_hit F a b k ->
  state_after F b a k = mirror (state_after F a b k).
Proof.
  intros Hab; induction k as [|k IH]; intros Hnz.
  - reflexivity.
  - rewrite !state_after_S, IH by (intros j Hj; apply Hnz; lia).
    apply step_mirror.
    + apply run_brackets; [assumption | intros j Hj; apply Hnz; lia].
    + apply Hnz; lia.
Qed.

End RealRuns.

(** ** Roots inside a bracket *)

Section Roots.
Local Open Scope R_scope.
Variable F : R -> R.
Variables a b : R.
Hypothesis a_le_b : a <= b.
Hypothesis F_continuous : continuous_on F a b.

Lemma clamp_range (x : R) : a <= clamp a b x <= b.
Proof.
  unfold clamp, Rmax, Rmin.
  destruct (Rle_dec x b); destruct (Rle_dec a _); lra.
Qed.

Lemma clamp_id (x : R) : a <= x <= b -> clamp a b x = x.
Proof.
  intros Hx; unfold clamp, Rmax, Rmin.
  destruct (Rle_dec x b); destruct (Rle_dec a _); lra.
Qed.

Lemma clamp_contracts (x y : R) :
  Rabs (clamp a b y - clamp a b x) <= Rabs (y - x).
Proof.
  unfold clamp, Rmax, Rmin.
  destruct (Rle_dec x b); destruct (Rle_dec y b);
    repeat destruct (Rle_dec a _);
    unfold Rabs; repeat destruct (Rcase_abs _); lra.
Qed.

(** [F] after [clamp] is continuous on the whole line and agrees with
    [F] on [[a,b]]. *)
Lemma clamped_continuity : continuity (fun x => F (clamp a b x)).
Proof.
  intros x eps Heps.
  destruct (F_continuous (clamp_range x) Heps) as [delta [Hdelta Hclose]].
  exists delta; split; [exact Hdelta|].
  intros y [_ Hy]. cbn in Hy |- *. unfold Rdist in *.
  apply Hclose; [apply clamp_range|].
  eapply Rle_lt_trans; [apply clamp_contracts | exact Hy].
Qed.

(** The intermediate value theorem on a bracket within [[a,b]]. *)
Lemma bracket_has_root (lo hi : R) :
  a <= lo -> lo < hi -> hi <= b -> F lo * F hi < 0 ->
  exists z : R, lo <= z <= hi /\ F z = 0.
Proof.
  intros Hlo Hlt Hhi Hsign.
  set (G := fun x => F (clamp a b x)).
  assert (HG : forall x, a <= x <= b -> G x = F x)
    by (intros x Hx; unfold G; now rewrite clamp_id).
  assert (Fl : G lo = F lo) by (apply HG; lra).
  assert (Fh : G hi = F hi) by (apply HG; lra).
  destruct (Rtotal_order (F lo) 0) as [Hneg | [Hz | Hpos]].
  - destruct (@IVT_interv G lo hi) as [z [Hz HGz]].
    + intros x _. apply clamped_continuity.
    + exact Hlt.
    + rewrite Fl; exact Hneg.
    + rewrite Fh. nra.
    + exists z; split; [exact Hz|]. rewrite <- HG by lra. exact HGz.
  - rewrite Hz in Hsign; lra.
  - destruct (@IVT_interv (- G)%F lo hi) as [z [Hz HGz]].
    + intros x _. apply continuity_pt_opp, clamped_continuity.
    + exact Hlt.
    + unfold opp_fct; rewrite Fl; lra.
    + unfold opp_fct; rewrite Fh. nra.
    + exists z; split; [exact Hz|]. rewrite <- HG by lra.
      unfold opp_fct in HGz; lra.
Qed.

Variable r : R.
Hypothesis r_single : single_root F a b r.

Lemma sub_bracket_encloses (s : locals R) :
  sub_bracket F a b s -> encloses r s.
Proof.
  intros (Ha & Hlt & Hb & Hs).
  destruct (@bracket_has_root (loc_a s) (loc_b s)) as [z [Hz HFz]];
    try assumption.
  destruct r_single as (_ & _ & Huniq).
  rewrite <- (Huniq z) by (assumption || lra).
  split; assumption.
Qed.

Lemma step_sub_bracket (s : locals R) :
  sub_bracket F a b s -> F (midpoint s) <> 0 ->
  sub_bracket F a b (step F s).
Proof.
  intros (Ha & Hlt & Hb & Hs) Hh.
  pose proof (step_brackets Hs Hh) as Hs'. revert Hs'.
  unfold sub_bracket.
  destruct (step_cases F s) as [[_ ->] | [_ ->]]; cbn [loc_a loc_b];
    rewrite ?midpoint_R; intros Hs'; repeat split; try lra; exact Hs'.
Qed.

Lemma run_sub_bracket (k : nat) :
  a < b -> F a * F b < 0 -> no_zero_hit F a b k ->
  sub_bracket F a b (state_after F a b k).
Proof.
  intros Hlt Hab; induction k as [|k IH]; intros Hnz.
  - unfold sub_bracket, brackets; cbn; lra.
  - rewrite state_after_S. apply step_sub_bracket.
    + apply IH. intros j Hj; apply Hnz; lia.
    + apply Hnz; lia.
Qed.

(** One more pass keeps the root enclosed, exact zero or not. *)
Lemma step_encloses (s : locals R) :
  sub_bracket F a b s -> encloses r (step F s).
Proof.
  intros Hs.
  destruct (Req_dec (F (midpoint s)) 0) as [Hz | Hnz].
  - rewrite step_zero by assumption.
    destruct Hs as (Ha & Hlt & Hb & _).
    destruct r_single as (_ & _ & Huniq).
    assert (Hm : midpoint s = r)
      by (apply Huniq; [rewrite midpoint_R; lra | assumption]).
    unfold encloses; cbn [loc_a loc_b]. rewrite Hm.
    rewrite midpoint_R in Hm. lra.
  - apply sub_bracket_encloses. now apply step_sub_bracket.
Qed.

Lemma midpoint_error (s : locals R) :
  encloses r s -> Rabs (midpoint s - r) <= width s / 2.
Proof.
  intros [Hlt Hr]. rewrite midpoint_R; unfold width.
  apply Rabs_le; lra.
Qed.

End Roots.

(** ** The notebook's first call, on fractions *)

Module NotebookRuns.
Import Notebook.

(** [bisection(func, 1, 2, 25)] on fractions: the value is
    [58117981 / 2^25], which prints as [1.7320508062839508]. *)
Example run_func_Q :
  estimate func_Q 1%Q 2%Q 25 = Ok (58117981 # 33554432)%Q.
Proof. vm_compute. reflexivity. Qed.

Example run_func_evals :
  length (evaluations func_Q 1%Q 2%Q 25) = 50%nat.
Proof. vm_compute. reflexivity. Qed.

End NotebookRuns.

(** ** Properties that hold at every carrier *)

Module Any.
Section Properties.
Context {num : Type} `{Number num}.
Variable F : num -> num.

(** C2, as amended: for [n >= 1] the value returned is the midpoint of
    the interval held before the last halving, that is after [n - 1]
    halvings; in the interval held when the loop exits it is one of the
    two endpoints. *)
Theorem estimate_is_last_midpoint (a b : num) (n : Z) :
  (1 <= n)%Z ->
  let before := state_after F a b (Z.to_nat (n - 1)) in
  let final := state_after F a b (Z.to_nat n) in
  estimate F a b n = Ok (midpoint before) /\
  (loc_a final = midpoint before \/ loc_b final = midpoint before).
Proof.
  intros Hn before final; split.
  - now apply estimate_pos.
  - subst before final.
    replace (Z.to_nat n) with (S (Z.to_nat (n - 1))) by lia.
    rewrite state_after_S. apply step_endpoint.
Qed.

(** C6: for [n >= 1] a call returns after exactly [2n] calls of [F]: in
    each pass [F(a)] and then [F(h)], at the current [a] every time.  The
    call does nothing else: it extends the log by these calls and its
    result does not depend on what was logged before. *)
Theorem evaluations_two_per_pass (a b : num) (n : Z) :
  (1 <= n)%Z ->
  (exists v : num, estimate F a b n = Ok v) /\
  length (evaluations F a b n) = Z.to_nat (2 * n) /\
  evaluations F a b n =
    flat_map (fun k => [loc_a (state_after F a b k);
                        midpoint (state_after F a b k)])
             (seq 0 (Z.to_nat n)) /\
  forall log : list num,
    bisection F a b n log = (estimate F a b n, log ++ evaluations F a b n).
Proof.
  intros Hn; repeat split.
  - eexists; now apply estimate_pos.
  - rewrite evaluations_unfold, evals_from_length; lia.
  - rewrite evaluations_unfold. apply evals_from_passes.
  - intros log.
    now rewrite bisection_run, estimate_unfold, evaluations_unfold.
Qed.

(** C8: with [n <= 0] the loop body never runs, [h] is still unbound at
    [return h] and the call raises [UnboundLocalError]; with [n >= 1] the
    call always returns a value. *)
Theorem unbound_h_without_a_pass (a b : num) (n : Z) :
  ((n <= 0)%Z -> estimate F a b n = Raise UnboundLocalError) /\
  ((1 <= n)%Z -> exists v : num, estimate F a b n = Ok v).
Proof.
  split; intros Hn.
  - rewrite estimate_unfold.
    replace (Z.to_nat n) with 0%nat by lia. reflexivity.
  - eexists; now apply estimate_pos.
Qed.

End Properties.
End Any.

(** The three properties on the notebook's function, over fractions. *)

Lemma estimate_is_last_midpoint_witness :
  estimate Notebook.func_Q 1%Q 2%Q 2 = Ok (7 # 4)%Q /\
  (loc_a (state_after Notebook.func_Q 1%Q 2%Q 2) = (7 # 4)%Q \/
   loc_b (state_after Notebook.func_Q 1%Q 2%Q 2) = (7 # 4)%Q).
Proof.
  exact (@Any.estimate_is_last_midpoint Q _ Notebook.func_Q 1%Q 2%Q 2
           ltac:(vm_compute; discriminate)).
Defined.

Lemma evaluations_two_per_pass_witness :
  length (evaluations Notebook.func_Q 1%Q 2%Q 3) = 6%nat.
Proof.
  apply (@Any.evaluations_two_per_pass Q _ Notebook.func_Q 1%Q 2%Q 3).
  vm_compute; discriminate.
Defined.

Lemma unbound_h_without_a_pass_witness :
  estimate Notebook.func_Q 1%Q 2%Q 0 = Raise UnboundLocalError /\
  exists v : Q, estimate Notebook.func_Q 1%Q 2%Q 1 = Ok v.
Proof.
  split.
  - apply (@Any.unbound_h_without_a_pass Q _ Notebook.func_Q 1%Q 2%Q 0).
    vm_compute; discriminate.
  - apply (@Any.unbound_h_without_a_pass Q _ Notebook.func_Q 1%Q 2%Q 1).
    vm_compute; discriminate.
Defined.

(** ** Properties in exact arithmetic *)

Module Exact.
Section Properties.
Local Open Scope R_scope.
Variable F : R -> R.

(** C3: in a call with budget [n], after [k < n] passes the width of the
    active interval is exactly [(b - a) / 2^k]; the next pass halves it
    exactly, and the call goes on from that interval for the remaining
    [n - k] passes. *)
Theorem interval_width_halves (a b : R) (n : Z) (k : nat) :
  (Z.of_nat k < n)%Z ->
  width (state_after F a b k) = (b - a) / 2 ^ k /\
  width (state_after F a b (S k)) = width (state_after F a b k) / 2 /\
  estimate F a b n =
    return_h (run_from F (Z.to_nat n - k) (state_after F a b k)).
Proof.
  intros Hk; repeat split.
  - apply state_width.
  - rewrite state_after_S. apply step_width.
  - rewrite estimate_unfold. unfold state_after.
    rewrite <- run_from_add. do 2 f_equal. lia.
Qed.

(** C4, as amended: in exact arithmetic, when [F(a)] and [F(b)] have
    strictly opposite signs at entry, every pass keeps it so: as long as
    no midpoint [h] with [F(h) == 0] has been hit, the endpoints of the
    new active interval have function values of strictly opposite
    signs. *)
Theorem bracket_is_preserved (a b : R) (k : nat) :
  F a * F b < 0 ->
  no_zero_hit F a b (S k) ->
  brackets F (state_after F a b k) /\
  brackets F (state_after F a b (S k)).
Proof.
  intros Hab Hnz; split.
  - apply run_brackets; [assumption | intros j Hj; apply Hnz; lia].
  - now apply run_brackets.
Qed.

(** C5: at a pass whose midpoint [h] has [F(h) == 0] the [else] branch is
    taken: [a = h], [b] unchanged.  The call does not stop there: it goes
    on for the remaining passes from that interval, and when at least one
    pass remains and the interval was not degenerate it returns a value
    other than [h]. *)
Theorem exact_zero_takes_else_branch (a b : R) (n : Z) (k : nat) :
  (Z.of_nat k < n)%Z ->
  F (midpoint (state_after F a b k)) = 0 ->
  let s := state_after F a b k in
  let s' := {| loc_a := midpoint s; loc_b := loc_b s;
               loc_h := Some (midpoint s) |} in
  state_after F a b (S k) = s' /\
  estimate F a b n = return_h (run_from F (Z.to_nat n - S k) s') /\
  ((Z.of_nat (S k) < n)%Z -> loc_a s <> loc_b s ->
   estimate F a b n <> Ok (midpoint s)).
Proof.
  intros Hk Hz s s'.
  assert (Hs' : state_after F a b (S k) = s')
    by (rewrite state_after_S; now apply step_zero).
  assert (Hrun : estimate F a b n =
                 return_h (run_from F (Z.to_nat n - S k) s')).
  { rewrite estimate_unfold, <- Hs'. unfold state_after.
    rewrite <- run_from_add. do 2 f_equal. lia. }
  repeat split; try assumption.
  intros Hmore Hne. rewrite Hrun.
  destruct (Z.to_nat n - S k)%nat as [|m] eqn:Hm; [lia|].
  rewrite run_from_last. unfold return_h; rewrite step_h.
  intros Heq.
  assert (E : midpoint (run_from F m s') = midpoint s) by congruence.
  assert (Hin : inside (Rmin (midpoint s) (loc_b s))
                       (Rmax (midpoint s) (loc_b s)) s').
  { unfold inside; subst s'; cbn [loc_a loc_b].
    rewrite midpoint_R. split; lra. }
  pose proof (midpoint_inside (run_inside F m Hin)) as Hmid.
  rewrite E in Hmid. revert Hmid. unfold Rmin, Rmax.
  destruct (Rle_dec _ _); lra.
Qed.

(** C9: for distinct endpoints and [n >= 1] the value returned lies
    strictly between [min(a, b)] and [max(a, b)], whatever the signs of
    [F(a)] and [F(b)]. *)
Theorem estimate_strictly_between (a b : R) (n : Z) :
  a <> b -> (1 <= n)%Z ->
  exists e : R, estimate F a b n = Ok e /\ Rmin a b < e < Rmax a b.
Proof.
  intros Hab Hn. eexists; split; [now apply estimate_pos|].
  apply midpoint_inside, run_inside. now apply entry_inside.
Qed.

(** C10, as amended: in exact arithmetic, on the degenerate bracket
    [a == b] every midpoint equals [a], the interval never changes, and
    for [n >= 1] the call returns exactly [a]. *)
Theorem degenerate_bracket_returns_endpoint (a b : R) (n : Z) :
  a = b -> (1 <= n)%Z ->
  (forall k : nat,
     midpoint (state_after F a b k) = a /\
     loc_a (state_after F a b k) = a /\ loc_b (state_after F a b k) = b) /\
  estimate F a b n = Ok a.
Proof.
  intros <- Hn.
  assert (Hk : forall k : nat,
    loc_a (state_after F a a k) = a /\ loc_b (state_after F a a k) = a).
  { induction k as [|k [IHa IHb]]; [split; reflexivity|].
    rewrite state_after_S.
    destruct (step_cases F (state_after F a a k)) as [[_ ->] | [_ ->]];
      cbn [loc_a loc_b]; rewrite midpoint_R, IHa, IHb; split; lra. }
  assert (Hm : forall k : nat, midpoint (state_after F a a k) = a).
  { intros k; destruct (Hk k) as [Ha Hb]. rewrite midpoint_R, Ha, Hb; lra. }
  split.
  - intros k; split; [apply Hm | apply Hk].
  - rewrite estimate_pos by assumption. now rewrite Hm.
Qed.

(** C7, as amended: in exact arithmetic, when [F(a)] and [F(b)] have
    strictly opposite signs and none of the midpoints computed before the
    last pass is an exact zero of [F], exchanging the endpoints does not
    change the value returned, for every [n >= 1]. *)
Theorem endpoints_exchange (a b : R) (n : Z) :
  (1 <= n)%Z ->
  F a * F b < 0 ->
  no_zero_hit F a b (Z.to_nat (n - 1)) ->
  estimate F a b n = estimate F b a n.
Proof.
  intros Hn Hab Hnz.
  rewrite !estimate_pos by assumption.
  rewrite (run_mirror Hab Hnz). now rewrite midpoint_mirror.
Qed.

(** C1, as amended: in exact arithmetic, let [F] be continuous on
    [[a,b]] with a single root [r] there and [F(a)*F(b) < 0], and let
    [n >= 1].  If none of the midpoints computed in the first [n - 2]
    passes is an exact zero of [F], the value returned is within
    [(b - a) / 2^n] of [r]. *)
Theorem bisection_converges (a b r : R) (n : Z) :
  continuous_on F a b ->
  single_root F a b r ->
  (1 <= n)%Z ->
  F a * F b < 0 ->
  no_zero_hit F a b (Z.to_nat (n - 2)) ->
  exists e : R,
    estimate F a b n = Ok e /\ Rabs (e - r) <= (b - a) / 2 ^ Z.to_nat n.
Proof.
  intros Hcont Hroot Hn Hab Hnz.
  assert (Hlt : a < b).
  { destruct Hroot as ([Har Hrb] & _ & _).
    destruct (Req_dec a b) as [-> | Hne]; [nra | lra]. }
  eexists; split; [now apply estimate_pos|].
  assert (Henc : encloses r (state_after F a b (Z.to_nat (n - 1)))).
  { destruct (Z.to_nat (n - 1)) as [|m] eqn:Hm.
    - destruct Hroot as (Hr & _ & _). split; cbn; lra.
    - rewrite state_after_S.
      apply step_encloses with (a := a) (b := b);
        [lra | assumption | assumption |].
      apply run_sub_bracket; try assumption.
      replace m with (Z.to_nat (n - 2)) by lia. exact Hnz. }
  eapply Rle_trans; [apply midpoint_error, Henc|].
  rewrite state_width.
  replace (Z.to_nat n) with (S (Z.to_nat (n - 1))) by lia.
  cbn [pow]. apply Req_le. field. apply pow_nonzero; lra.
Qed.

End Properties.
End Exact.

(** ** The properties on concrete inputs *)

Module ProbeRuns.
Import Probe.
Local Open Scope R_scope.

Lemma identity_continuous (a b : R) : continuous_on identity a b.
Proof.
  intros x _ eps Heps. exists eps; split; [assumption|].
  intros y _ Hy. exact Hy.
Qed.

Lemma identity_single_root (a b : R) :
  a <= 0 <= b -> single_root identity a b 0.
Proof.
  intros H0; repeat split; try lra. intros x _ Hx; exact Hx.
Qed.

(** [identity] on the bracket [(-1, 1)]: the first midpoint is the root. *)
Lemma identity_centred_1 :
  state_after identity (-1) 1 1 =
  {| loc_a := 0; loc_b := 1; loc_h := Some 0 |}.
Proof.
  rewrite state_after_S, state_after_0.
  apply step_else; [rewrite midpoint_R | unfold identity]; cbn; lra.
Qed.

Lemma identity_centred_2 :
  state_after identity (-1) 1 2 =
  {| loc_a := 1 / 2; loc_b := 1; loc_h := Some (1 / 2) |}.
Proof.
  rewrite state_after_S, identity_centred_1.
  apply step_else; [rewrite midpoint_R | unfold identity]; cbn; lra.
Qed.

Lemma identity_centred_estimate :
  estimate identity (-1) 1 3 = Ok (3 / 4).
Proof.
  rewrite estimate_pos by lia.
  change (Z.to_nat (3 - 1)) with 2%nat.
  rewrite identity_centred_2, midpoint_R; cbn. f_equal; lra.
Qed.

(** [identity] on the bracket [(-1, 2)]: no midpoint is the root. *)
Lemma identity_skewed_1 :
  state_after identity (-1) 2 1 =
  {| loc_a := -1; loc_b := 1 / 2; loc_h := Some (1 / 2) |}.
Proof.
  rewrite state_after_S, state_after_0.
  apply step_then; [rewrite midpoint_R | unfold identity]; cbn; lra.
Qed.

Lemma identity_skewed_no_zero_hit : no_zero_hit identity (-1) 2 2.
Proof.
  intros [|[|j]] Hj; [| |lia].
  - rewrite state_after_0, midpoint_R; unfold identity; cbn; lra.
  - rewrite identity_skewed_1, midpoint_R; unfold identity; cbn; lra.
Qed.

(** [identity] on [(1, -1)]: the same midpoint, the other endpoint kept. *)
Lemma identity_reversed_1 :
  state_after identity 1 (-1) 1 =
  {| loc_a := 0; loc_b := -1; loc_h := Some 0 |}.
Proof.
  rewrite state_after_S, state_after_0.
  apply step_else; [rewrite midpoint_R | unfold identity]; cbn; lra.
Qed.

(** [one] on [(0, 1)] and on [(1, 0)]: always the [else] branch. *)
Lemma one_forward_1 :
  state_after one 0 1 1 =
  {| loc_a := 1 / 2; loc_b := 1; loc_h := Some (1 / 2) |}.
Proof.
  rewrite state_after_S, state_after_0.
  apply step_else; [rewrite midpoint_R | unfold one]; cbn; lra.
Qed.

Lemma one_backward_1 :
  state_after one 1 0 1 =
  {| loc_a := 1 / 2; loc_b := 0; loc_h := Some (1 / 2) |}.
Proof.
  rewrite state_after_S, state_after_0.
  apply step_else; [rewrite midpoint_R | unfold one]; cbn; lra.
Qed.

(** [func] on the notebook's bracket [(1, 2)]: the first pass moves [a]. *)
Lemma func_1 :
  state_after Notebook.func_R 1 2 1 =
  {| loc_a := 3 / 2; loc_b := 2; loc_h := Some (3 / 2) |}.
Proof.
  rewrite state_after_S, state_after_0.
  apply step_else; [rewrite midpoint_R | unfold Notebook.func_R]; cbn; lra.
Qed.

(** The same runs computed on fractions. *)
Example identity_centred_Q :
  estimate identity_Q (-1 # 1)%Q 1%Q 3 = Ok (3 # 4)%Q /\
  estimate identity_Q (-1 # 1)%Q 1%Q 2 = Ok (1 # 2)%Q /\
  estimate identity_Q 1%Q (-1 # 1)%Q 2 = Ok (-1 # 2)%Q.
Proof. vm_compute. repeat split. Qed.

Example one_both_ways_Q :
  estimate one_Q 0%Q 1%Q 2 = Ok (3 # 4)%Q /\
  estimate one_Q 1%Q 0%Q 2 = Ok (1 # 4)%Q.
Proof. vm_compute. repeat split. Qed.

Example func_first_pass_Q :
  estimate Notebook.func_Q 1%Q 2%Q 1 = Ok (3 # 2)%Q /\
  midpoint (state_after Notebook.func_Q 1%Q 2%Q 1) = (7 # 4)%Q.
Proof. vm_compute. repeat split. Qed.

End ProbeRuns.

Section Instances.
Import Probe ProbeRuns.
Local Open Scope R_scope.

(** An exact zero at a midpoint, in exact arithmetic: [identity] is
    continuous with the single root [0] in [[-1,1]] and changes sign
    there, the first midpoint is the root, and three passes return
    [3/4], further from the root than [(1 - -1) / 2^3 = 1/4]. *)
Lemma convergence_fails_after_exact_zero :
  continuous_on identity (-1) 1 /\
  single_root identity (-1) 1 0 /\
  (1 <= 3)%Z /\
  identity (-1) * identity 1 < 0 /\
  estimate identity (-1) 1 3 = Ok (3 / 4) /\
  ~ Rabs (3 / 4 - 0) <= (1 - -1) / 2 ^ Z.to_nat 3.
Proof.
  split; [apply identity_continuous|].
  split; [apply identity_single_root; lra|].
  split; [lia|].
  split; [unfold identity; lra|].
  split; [apply identity_centred_estimate|].
  change (Z.to_nat 3) with 3%nat; cbn [pow].
  rewrite Rabs_pos_eq by lra. lra.
Qed.

Lemma bisection_converges_witness :
  exists e : R,
    estimate identity (-1) 2 3 = Ok e /\
    Rabs (e - 0) <= (2 - -1) / 2 ^ Z.to_nat 3.
Proof.
  apply (@Exact.bisection_converges identity (-1) 2 0 3).
  - apply identity_continuous.
  - apply identity_single_root; lra.
  - lia.
  - unfold identity; lra.
  - intros j Hj. apply identity_skewed_no_zero_hit.
    change (Z.to_nat (3 - 2)) with 1%nat in Hj. lia.
Defined.

(** C2 as stated fails: one pass over [func] on [(1, 2)] returns [3/2],
    while the interval held when the loop exits is [(3/2, 2)], whose
    midpoint is [7/4]. *)
Lemma estimate_is_not_final_midpoint :
  (1 <= 1)%Z /\
  estimate Notebook.func_R 1 2 1 = Ok (3 / 2) /\
  midpoint (state_after Notebook.func_R 1 2 (Z.to_nat 1)) = 7 / 4 /\
  estimate Notebook.func_R 1 2 1 <>
    Ok (midpoint (state_after Notebook.func_R 1 2 (Z.to_nat 1))).
Proof.
  assert (He : estimate Notebook.func_R 1 2 1 = Ok (3 / 2)).
  { rewrite estimate_pos by lia.
    change (Z.to_nat (1 - 1)) with 0%nat.
    rewrite state_after_0, midpoint_R; cbn. f_equal; lra. }
  assert (Hm : midpoint (state_after Notebook.func_R 1 2 (Z.to_nat 1))
               = 7 / 4).
  { change (Z.to_nat 1) with 1%nat. rewrite func_1, midpoint_R; cbn; lra. }
  split; [lia|]. split; [exact He|]. split; [exact Hm|].
  rewrite He, Hm. intros E; injection E; lra.
Qed.

(** Exchanged endpoints, in exact arithmetic.  Without a sign change:
    the constant function [one] sends both calls to the [else] branch, so
    two passes return [3/4] from [(0, 1)] and [1/4] from [(1, 0)].  With
    a sign change but an exact zero at the first midpoint: [identity]
    returns [1/2] from [(-1, 1)] and [-1/2] from [(1, -1)]. *)
Lemma endpoints_are_not_symmetric :
  (1 <= 2)%Z /\
  (estimate one 0 1 2 = Ok (3 / 4) /\
   estimate one 1 0 2 = Ok (1 / 4) /\
   estimate one 0 1 2 <> estimate one 1 0 2) /\
  (identity (-1) * identity 1 < 0 /\
   estimate identity (-1) 1 2 = Ok (1 / 2) /\
   estimate identity 1 (-1) 2 = Ok (-1 / 2) /\
   estimate identity (-1) 1 2 <> estimate identity 1 (-1) 2).
Proof.
  assert (Hf : estimate one 0 1 2 = Ok (3 / 4)).
  { rewrite estimate_pos by lia.
    change (Z.to_nat (2 - 1)) with 1%nat.
    rewrite one_forward_1, midpoint_R; cbn. f_equal; lra. }
  assert (Hb : estimate one 1 0 2 = Ok (1 / 4)).
  { rewrite estimate_pos by lia.
    change (Z.to_nat (2 - 1)) with 1%nat.
    rewrite one_backward_1, midpoint_R; cbn. f_equal; lra. }
  assert (Hif : estimate identity (-1) 1 2 = Ok (1 / 2)).
  { rewrite estimate_pos by lia.
    change (Z.to_nat (2 - 1)) with 1%nat.
    rewrite identity_centred_1, midpoint_R; cbn. f_equal; lra. }
  assert (Hib : estimate identity 1 (-1) 2 = Ok (-1 / 2)).
  { rewrite estimate_pos by lia.
    change (Z.to_nat (2 - 1)) with 1%nat.
    rewrite identity_reversed_1, midpoint_R; cbn. f_equal; lra. }
  split; [lia|]. split.
  - split; [exact Hf|]. split; [exact Hb|].
    rewrite Hf, Hb. intros E; injection E; lra.
  - split; [unfold identity; lra|].
    split; [exact Hif|]. split; [exact Hib|].
    rewrite Hif, Hib. intros E; injection E; lra.
Qed.

Lemma endpoints_exchange_witness :
  estimate identity (-1) 2 3 = estimate identity 2 (-1) 3.
Proof.
  apply (@Exact.endpoints_exchange identity (-1) 2 3).
  - lia.
  - unfold identity; lra.
  - exact identity_skewed_no_zero_hit.
Defined.

Lemma interval_width_halves_witness :
  width (state_after identity (-1) 2 2) = (2 - -1) / 2 ^ 2.
Proof.
  apply (@Exact.interval_width_halves identity (-1) 2 3 2). lia.
Defined.

Lemma bracket_is_preserved_witness :
  brackets identity (state_after identity (-1) 2 2).
Proof.
  apply (@Exact.bracket_is_preserved identity (-1) 2 1).
  - unfold identity; lra.
  - exact identity_skewed_no_zero_hit.
Defined.

Lemma exact_zero_takes_else_branch_witness :
  estimate identity (-1) 1 3 <>
    Ok (midpoint (state_after identity (-1) 1 0)).
Proof.
  apply (@Exact.exact_zero_takes_else_branch identity (-1) 1 3 0).
  - lia.
  - rewrite state_after_0, midpoint_R; unfold identity; cbn; lra.
  - lia.
  - rewrite state_after_0; cbn; lra.
Defined.

Lemma estimate_strictly_between_witness :
  exists e : R,
    estimate identity (-1) 2 3 = Ok e /\ Rmin (-1) 2 < e < Rmax (-1) 2.
Proof.
  apply (@Exact.estimate_strictly_between identity (-1) 2 3); [lra | lia].
Defined.

Lemma degenerate_bracket_returns_endpoint_witness :
  estimate identity 1 1 3 = Ok 1.
Proof.
  apply (@Exact.degenerate_bracket_returns_endpoint identity 1 1 3);
    [reflexivity | lia].
Defined.

End Instances.

(** ** More on the loop in exact arithmetic *)

Section MoreRealRuns.
Local Open Scope R_scope.
Variable F : R -> R.

(** Both endpoints lie in [[lo,hi]]; the interval may be degenerate. *)
Lemma step_within (lo hi : R) (s : locals R) :
  lo <= loc_a s <= hi -> lo <= loc_b s <= hi ->
  lo <= midpoint s <= hi /\
  lo <= loc_a (step F s) <= hi /\ lo <= loc_b (step F s) <= hi.
Proof.
  intros Ha Hb.
  assert (Hm : lo <= midpoint s <= hi) by (rewrite midpoint_R; lra).
  split; [exact Hm|].
  destruct (step_cases F s) as [[_ ->] | [_ ->]]; cbn [loc_a loc_b];
    split; assumption.
Qed.

Lemma run_within (lo hi : R) (k : nat) (s : locals R) :
  lo <= loc_a s <= hi -> lo <= loc_b s <= hi ->
  lo <= loc_a (run_from F k s) <= hi /\ lo <= loc_b (run_from F k s) <= hi.
Proof.
  revert s; induction k as [|k IH]; intros s Ha Hb.
  - split; assumption.
  - rewrite run_from_S.
    destruct (step_within s Ha Hb) as (_ & Ha' & Hb'). now apply IH.
Qed.

Lemma entry_within (a b : R) :
  Rmin a b <= loc_a (entry a b) <= Rmax a b /\
  Rmin a b <= loc_b (entry a b) <= Rmax a b.
Proof.
  cbn; unfold Rmin, Rmax; destruct (Rle_dec a b); lra.
Qed.

Lemma evals_from_within (lo hi : R) (k : nat) (s : locals R) :
  lo <= loc_a s <= hi -> lo <= loc_b s <= hi ->
  Forall (fun x => lo <= x <= hi) (evals_from F k s).
Proof.
  revert s; induction k as [|k IH]; intros s Ha Hb.
  - constructor.
  - rewrite evals_from_S.
    destruct (step_within s Ha Hb) as (Hm & Ha' & Hb').
    constructor; [exact Ha|]. constructor; [exact Hm|]. now apply IH.
Qed.

(** Without a sign change in sight the [else] branch is taken. *)
Lemma step_no_sign_change (lo hi : R) (s : locals R) :
  no_sign_change F lo hi ->
  lo <= loc_a s <= hi -> lo <= loc_b s <= hi ->
  step F s = {| loc_a := midpoint s; loc_b := loc_b s;
                loc_h := Some (midpoint s) |}.
Proof.
  intros Hns Ha Hb. apply step_else; [reflexivity|].
  apply Hns; [assumption|]. rewrite midpoint_R; lra.
Qed.

Lemma run_no_sign_change (a b : R) (k : nat) :
  no_sign_change F (Rmin a b) (Rmax a b) ->
  loc_a (state_after F a b k) = b - (b - a) / 2 ^ k /\
  loc_b (state_after F a b k) = b.
Proof.
  intros Hns; induction k as [|k [IHa IHb]].
  - rewrite state_after_0; cbn; split; lra.
  - rewrite state_after_S.
    destruct (entry_within a b) as [Ha Hb].
    destruct (run_within k _ Ha Hb) as [Ha' Hb'].
    fold (state_after F a b k) in Ha', Hb'.
    rewrite step_no_sign_change with (lo := Rmin a b) (hi := Rmax a b)
      by assumption; cbn [loc_a loc_b].
    rewrite midpoint_R, IHa, IHb; cbn [pow]; split; [|reflexivity].
    field. apply pow_nonzero; lra.
Qed.

(** The endpoints sit on the grid of step [(b - a) / 2^k] from [a]. *)
Lemma run_on_grid (a b : R) (k : nat) :
  exists p : Z, (0 <= p < 2 ^ Z.of_nat k)%Z /\
    loc_a (state_after F a b k) = a + (b - a) * IZR p / 2 ^ k /\
    loc_b (state_after F a b k) = a + (b - a) * IZR (p + 1) / 2 ^ k.
Proof.
  induction k as [|k (p & Hp & Ha & Hb)].
  - exists 0%Z; rewrite state_after_0; cbn; repeat split; try lia; lra.
  - assert (H2 : 2 ^ k <> 0) by (apply pow_nonzero; lra).
    assert (Hpow : (2 ^ Z.of_nat (S k) = 2 * 2 ^ Z.of_nat k)%Z)
      by (rewrite Nat2Z.inj_succ, Z.pow_succ_r; lia).
    rewrite state_after_S.
    destruct (step_cases F (state_after F a b k)) as [[_ ->] | [_ ->]];
      cbn [loc_a loc_b]; rewrite ?midpoint_R, ?Ha, ?Hb, ?plus_IZR.
    + exists (2 * p)%Z; split; [lia|].
      rewrite plus_IZR, mult_IZR; cbn [pow]; split; field; assumption.
    + exists (2 * p + 1)%Z; split; [lia|].
      rewrite !plus_IZR, mult_IZR; cbn [pow]; split; field; assumption.
Qed.

Lemma midpoint_on_grid (a b : R) (k : nat) :
  exists m : Z, Z.odd m = true /\ (0 < m < 2 ^ Z.of_nat (S k))%Z /\
    midpoint (state_after F a b k) = a + (b - a) * IZR m / 2 ^ S k.
Proof.
  destruct (run_on_grid a b k) as (p & Hp & Ha & Hb).
  assert (H2 : 2 ^ k <> 0) by (apply pow_nonzero; lra).
  exists (2 * p + 1)%Z; split; [|split].
  - rewrite Z.add_1_r, Z.odd_succ, Z.even_mul; reflexivity.
  - rewrite Nat2Z.inj_succ, Z.pow_succ_r; lia.
  - rewrite midpoint_R, Ha, Hb, !plus_IZR, mult_IZR; cbn [pow].
    field; assumption.
Qed.

End MoreRealRuns.

Section SameSignChanges.
Local Open Scope R_scope.
Variables F G : R -> R.

Lemma step_same_sign_changes (lo hi : R) (s : locals R) :
  same_sign_changes F G lo hi ->
  lo <= loc_a s <= hi -> lo <= loc_b s <= hi ->
  step G s = step F s.
Proof.
  intros Hsame Ha Hb.
  assert (Hm : lo <= midpoint s <= hi) by (rewrite midpoint_R; lra).
  destruct (step_cases F s) as [[Hlt ->] | [Hge ->]].
  - apply step_then; [reflexivity|]. now apply (Hsame _ _ Ha Hm).
  - apply step_else; [reflexivity|].
    intros HG; apply Hge. now apply (Hsame _ _ Ha Hm).
Qed.

Lemma run_same_sign_changes (a b : R) (k : nat) :
  same_sign_changes F G (Rmin a b) (Rmax a b) ->
  state_after G a b k = state_after F a b k.
Proof.
  intros Hsame; induction k as [|k IH].
  - reflexivity.
  - rewrite !state_after_S, IH.
    destruct (entry_within a b) as [Ha Hb].
    destruct (run_within F k _ Ha Hb) as [Ha' Hb'].
    now apply step_same_sign_changes with (lo := Rmin a b) (hi := Rmax a b).
Qed.

Lemma evals_same_sign_changes (a b : R) (k : nat) :
  same_sign_changes F G (Rmin a b) (Rmax a b) ->
  evals_from G k (entry a b) = evals_from F k (entry a b).
Proof.
  intros Hsame. rewrite !evals_from_passes.
  apply flat_map_ext; intros j.
  fold (state_after G a b j) (state_after F a b j).
  now rewrite run_same_sign_changes.
Qed.

End SameSignChanges.

Section AffineChange.
Local Open Scope R_scope.
Variable F : R -> R.
Variables s t : R.
Hypothesis s_nonzero : s <> 0.

Lemma step_affine (u v : locals R) :
  loc_a v = s * loc_a u + t -> loc_b v = s * loc_b u + t ->
  midpoint v = s * midpoint u + t /\
  loc_a (step (fun y => F ((y - t) / s)) v) = s * loc_a (step F u) + t /\
  loc_b (step (fun y => F ((y - t) / s)) v) = s * loc_b (step F u) + t.
Proof.
  intros Ha Hb.
  assert (Hm : midpoint v = s * midpoint u + t)
    by (rewrite !midpoint_R, Ha, Hb; lra).
  assert (Fa : F ((loc_a v - t) / s) = F (loc_a u))
    by (f_equal; rewrite Ha; now field).
  assert (Fm : F ((midpoint v - t) / s) = F (midpoint u))
    by (f_equal; rewrite Hm; now field).
  split; [exact Hm|].
  destruct (step_cases F u) as [[Hlt ->] | [Hge ->]]; cbn [loc_a loc_b].
  - rewrite (@step_then _ v (midpoint v));
      [cbn [loc_a loc_b]; split; assumption | reflexivity |].
    now rewrite Fa, Fm.
  - rewrite (@step_else _ v (midpoint v));
      [cbn [loc_a loc_b]; split; assumption | reflexivity |].
    now rewrite Fa, Fm.
Qed.

Lemma run_affine (a b : R) (k : nat) :
  loc_a (state_after (fun y => F ((y - t) / s)) (s * a + t) (s * b + t) k)
    = s * loc_a (state_after F a b k) + t /\
  loc_b (state_after (fun y => F ((y - t) / s)) (s * a + t) (s * b + t) k)
    = s * loc_b (state_after F a b k) + t.
Proof.
  induction k as [|k [IHa IHb]].
  - split; reflexivity.
  - rewrite !state_after_S.
    destruct (step_affine _ _ IHa IHb) as (_ & Ha & Hb). now split.
Qed.

End AffineChange.

Section NearARoot.
Local Open Scope R_scope.
Variable F : R -> R.

(** With a sign change, the value returned is close to some zero of [F],
    whether or not it is the only one. *)
Lemma estimate_near_a_root (a b : R) (n : Z) :
  continuous_on F a b -> a < b -> F a * F b < 0 -> (1 <= n)%Z ->
  no_zero_hit F a b (Z.to_nat (n - 2)) ->
  exists z : R, a <= z <= b /\ F z = 0 /\
  exists e : R,
    estimate F a b n = Ok e /\ Rabs (e - z) <= (b - a) / 2 ^ Z.to_nat n.
Proof.
  intros Hcont Hlt Hab Hn Hnz.
  assert (Hroot : exists z : R, a <= z <= b /\ F z = 0 /\
            encloses z (state_after F a b (Z.to_nat (n - 1)))).
  { destruct (Z.to_nat (n - 1)) as [|m] eqn:Hm.
    - destruct (@bracket_has_root F a b) with (lo := a) (hi := b)
        as [z [Hz HFz]]; try lra; try assumption.
      exists z; repeat split; cbn; lra.
    - assert (Hsub : sub_bracket F a b (state_after F a b m)).
      { apply run_sub_bracket; try assumption.
        replace m with (Z.to_nat (n - 2)) by lia. exact Hnz. }
      rewrite state_after_S.
      destruct (Req_dec (F (midpoint (state_after F a b m))) 0)
        as [Hz | Hne].
      + destruct Hsub as (Ha & Hlt' & Hb & _).
        exists (midpoint (state_after F a b m)).
        rewrite step_zero by assumption.
        unfold encloses; cbn [loc_a loc_b]; rewrite midpoint_R.
        repeat split; try lra. rewrite <- midpoint_R; exact Hz.
      + pose proof (step_sub_bracket Hsub Hne) as (Ha & Hlt' & Hb & Hs).
        destruct (@bracket_has_root F a b) with
          (lo := loc_a (step F (state_after F a b m)))
          (hi := loc_b (step F (state_after F a b m)))
          as [z [Hz HFz]]; try lra; try assumption.
        exists z; repeat split; lra. }
  destruct Hroot as (z & Hz & HFz & Henc).
  exists z; split; [exact Hz|]. split; [exact HFz|].
  eexists; split; [now apply estimate_pos|].
  eapply Rle_trans; [apply midpoint_error, Henc|].
  rewrite state_width.
  replace (Z.to_nat n) with (S (Z.to_nat (n - 1))) by lia.
  cbn [pow]. apply Req_le. field. apply pow_nonzero; lra.
Qed.

End NearARoot.

(** ** Further properties of [bisection] in exact arithmetic *)

Module More.
Section Properties.
Local Open Scope R_scope.
Variable F : R -> R.

(** X1: whatever [F], the endpoints and the budget, [F] is only ever
    called at points of the closed interval spanned by [a] and [b]. *)
Theorem evaluations_stay_in_bracket (a b : R) (n : Z) :
  Forall (fun x => Rmin a b <= x <= Rmax a b) (evaluations F a b n).
Proof.
  rewrite evaluations_unfold.
  destruct (entry_within a b) as [Ha Hb].
  now apply evals_from_within.
Qed.

(** X2: when no two values of [F] over the interval spanned by [a] and
    [b] have strictly opposite signs, every pass takes the [else] branch
    and the call returns [b - (b - a) / 2^n]: the walk ends next to [b],
    root or not. *)
Theorem no_sign_change_walks_to_b (a b : R) (n : Z) :
  (1 <= n)%Z ->
  no_sign_change F (Rmin a b) (Rmax a b) ->
  estimate F a b n = Ok (b - (b - a) / 2 ^ Z.to_nat n).
Proof.
  intros Hn Hns. rewrite estimate_pos by assumption. f_equal.
  destruct (@run_no_sign_change F a b (Z.to_nat (n - 1)) Hns) as [Ha Hb].
  rewrite midpoint_R, Ha, Hb.
  replace (Z.to_nat n) with (S (Z.to_nat (n - 1))) by lia.
  cbn [pow]. field. apply pow_nonzero; lra.
Qed.

(** X3: for [n >= 1] the value returned is [a + (b - a) * m / 2^n] for
    an odd integer [m] with [0 < m < 2^n]: one of [2^(n-1)] grid points,
    whatever [F] is. *)
Theorem estimate_on_dyadic_grid (a b : R) (n : Z) :
  (1 <= n)%Z ->
  exists m : Z, Z.odd m = true /\ (0 < m < 2 ^ n)%Z /\
    estimate F a b n = Ok (a + (b - a) * IZR m / 2 ^ Z.to_nat n).
Proof.
  intros Hn.
  destruct (@midpoint_on_grid F a b (Z.to_nat (n - 1)))
    as (m & Hodd & Hm & E).
  replace (S (Z.to_nat (n - 1))) with (Z.to_nat n) in * by lia.
  rewrite Z2Nat.id in Hm by lia.
  exists m; repeat split; try assumption; try lia.
  rewrite estimate_pos by assumption. now rewrite E.
Qed.

(** X4: raising the budget from [n >= 1] to [n + 1] moves the value
    returned by exactly [|b - a| / 2^(n+1)], whatever [F] is. *)
Theorem one_more_pass_moves_by_half (a b : R) (n : Z) :
  (1 <= n)%Z ->
  exists e e' : R,
    estimate F a b n = Ok e /\ estimate F a b (n + 1) = Ok e' /\
    Rabs (e' - e) = Rabs (b - a) / 2 ^ Z.to_nat (n + 1).
Proof.
  intros Hn.
  exists (midpoint (state_after F a b (Z.to_nat (n - 1)))),
         (midpoint (state_after F a b (Z.to_nat n))).
  split; [now apply estimate_pos|].
  split; [rewrite estimate_pos by lia; do 3 f_equal; lia|].
  pose proof (@state_width F a b (Z.to_nat (n - 1))) as Hw.
  replace (Z.to_nat (n + 1)) with (S (S (Z.to_nat (n - 1)))) by lia.
  replace (Z.to_nat n) with (S (Z.to_nat (n - 1))) by lia.
  assert (H2 : 2 ^ Z.to_nat (n - 1) <> 0) by (apply pow_nonzero; lra).
  assert (Hpos : 0 < 2 ^ S (S (Z.to_nat (n - 1))))
    by (apply pow_lt; lra).
  rewrite state_after_S. unfold width in Hw.
  set (u := state_after F a b (Z.to_nat (n - 1))) in *.
  replace (Rabs (b - a) / 2 ^ S (S (Z.to_nat (n - 1))))
    with (Rabs ((b - a) / 2 ^ S (S (Z.to_nat (n - 1)))))
    by (unfold Rdiv; rewrite Rabs_mult, (Rabs_pos_eq (/ _));
        [reflexivity | left; now apply Rinv_0_lt_compat]).
  assert (E : (b - a) / 2 ^ S (S (Z.to_nat (n - 1)))
              = (loc_b u - loc_a u) / 4)
    by (rewrite Hw; cbn [pow]; field; assumption).
  rewrite E.
  destruct (step_cases F u) as [[_ ->] | [_ ->]];
    rewrite (midpoint_R (Locals _ _ _)); cbn [loc_a loc_b];
    rewrite !midpoint_R.
  - rewrite <- Rabs_Ropp. f_equal. lra.
  - f_equal. lra.
Qed.

(** X5: for [F] continuous on [[a,b]] with [a < b] and [F(a)*F(b) < 0],
    any number of roots allowed, if none of the midpoints of the first
    [n - 2] passes is an exact zero then the value returned is within
    [(b - a) / 2^n] of some zero of [F] in [[a,b]]. *)
Theorem estimate_near_some_root (a b : R) (n : Z) :
  continuous_on F a b -> a < b -> F a * F b < 0 -> (1 <= n)%Z ->
  no_zero_hit F a b (Z.to_nat (n - 2)) ->
  exists z e : R,
    a <= z <= b /\ F z = 0 /\
    estimate F a b n = Ok e /\ Rabs (e - z) <= (b - a) / 2 ^ Z.to_nat n.
Proof.
  intros Hcont Hlt Hab Hn Hnz.
  destruct (@estimate_near_a_root F a b n Hcont Hlt Hab Hn Hnz)
    as (z & Hz & HFz & e & He & Herr).
  exists z, e; repeat split; try assumption; lra.
Qed.

(** X6: the call looks at [F] only through the sign test: a function
    [G] with the same sign changes between points of the interval spanned
    by [a] and [b] gives the same result and the same sequence of
    evaluation points. *)
Theorem result_depends_on_sign_changes (G : R -> R) (a b : R) (n : Z) :
  same_sign_changes F G (Rmin a b) (Rmax a b) ->
  estimate G a b n = estimate F a b n /\
  evaluations G a b n = evaluations F a b n.
Proof.
  intros Hsame; split.
  - rewrite !estimate_unfold.
    now rewrite (@run_same_sign_changes F G a b _ Hsame).
  - rewrite !evaluations_unfold. now apply evals_same_sign_changes.
Qed.

(** X7: multiplying [F] by a non-zero constant, negative ones included,
    does not change the result. *)
Theorem scaling_F_changes_nothing (c a b : R) (n : Z) :
  c <> 0 ->
  estimate (fun x => c * F x) a b n = estimate F a b n.
Proof.
  intros Hc. rewrite !estimate_unfold.
  rewrite (@run_same_sign_changes F (fun x => c * F x) a b);
    [reflexivity|].
  intros x y _ _.
  replace (c * F x * (c * F y)) with (c * c * (F x * F y)) by ring.
  assert (0 < c * c) by nra. split; intros Hlt; nra.
Qed.

(** X8: a change of variable [x -> s*x + t] with [s <> 0] commutes with
    the call: bisecting [y -> F((y - t)/s)] between [s*a + t] and
    [s*b + t] returns [s*e + t] where bisecting [F] between [a] and [b]
    returns [e], and raises where it raises. *)
Theorem change_of_variable (s t a b : R) (n : Z) :
  s <> 0 ->
  estimate (fun y => F ((y - t) / s)) (s * a + t) (s * b + t) n
  = result_map (fun x => s * x + t) (estimate F a b n).
Proof.
  intros Hs. destruct (Z_le_gt_dec n 0) as [Hn | Hn].
  - rewrite !estimate_unfold.
    replace (Z.to_nat n) with 0%nat by lia. reflexivity.
  - rewrite !estimate_pos by lia. cbn [result_map]. f_equal.
    destruct (@run_affine F s t Hs a b (Z.to_nat (n - 1))) as [Ha Hb].
    rewrite !midpoint_R, Ha, Hb. lra.
Qed.

End Properties.
End More.

(** ** The notebook's calls, for every budget *)

Section AnyCarrierEndpoints.
Context {num : Type} `{Number num}.
Variable F : num -> num.

(** A pass does not read [h]. *)
Lemma step_forgets_h (s : locals num) :
  step F s = step F (entry (loc_a s) (loc_b s)).
Proof. rewrite !step_unfold. reflexivity. Qed.

Lemma run_from_endpoints (k : nat) (s : locals num) :
  loc_a (run_from F k s) = loc_a (state_after F (loc_a s) (loc_b s) k) /\
  loc_b (run_from F k s) = loc_b (state_after F (loc_a s) (loc_b s) k).
Proof.
  destruct k as [|k].
  - split; reflexivity.
  - unfold state_after. rewrite !run_from_S, <- step_forgets_h.
    split; reflexivity.
Qed.

End AnyCarrierEndpoints.

Section NotebookCalls.
Import Notebook Callers.
Local Open Scope R_scope.

Lemma continuity_continuous_on (F : R -> R) (a b : R) :
  continuity F -> continuous_on F a b.
Proof.
  intros HF x _ eps Heps.
  destruct (HF x eps Heps) as [delta [Hdelta Hclose]].
  exists delta; split; [exact Hdelta|].
  intros y _ Hy.
  destruct (Req_dec x y) as [<- | Hne].
  - replace (F x - F x) with 0 by ring. now rewrite Rabs_R0.
  - apply Hclose. split; [split; [exact I | exact Hne] | exact Hy].
Qed.

Lemma func_R_continuity : continuity func_R.
Proof. unfold func_R. reg. Qed.

(** No fraction with a power of two below is a square root of three. *)
Lemma no_dyadic_sqrt3 (j : nat) (q : Z) :
  (q * q = 3 * 4 ^ Z.of_nat j)%Z -> False.
Proof.
  revert q; induction j as [|j IH]; intros q Hq.
  - change (q * q = 3)%Z in Hq.
    assert (Hb : (-2 < q < 2)%Z) by nia.
    assert (Hc : (q = -1 \/ q = 0 \/ q = 1)%Z) by lia.
    destruct Hc as [-> | [-> | ->]]; discriminate.
  - rewrite Nat2Z.inj_succ, Z.pow_succ_r in Hq by lia.
    set (X := (4 ^ Z.of_nat j)%Z) in *.
    destruct (Z.Even_or_Odd q) as [[r ->] | [r ->]].
    + apply (IH r). fold X.
      assert (E : (4 * (r * r) = 3 * (4 * X))%Z) by (rewrite <- Hq; ring).
      lia.
    + assert (E : (4 * (r * r) + 4 * r + 1 = 3 * (4 * X))%Z)
        by (rewrite <- Hq; ring).
      lia.
Qed.

Lemma func_R_no_dyadic_zero (m : Z) (j : nat) :
  func_R (1 + (2 - 1) * IZR m / 2 ^ j) <> 0.
Proof.
  unfold func_R; intros Hx.
  assert (H2 : 2 ^ j <> 0) by (apply pow_nonzero; lra).
  apply (@no_dyadic_sqrt3 j (2 ^ Z.of_nat j + m)%Z).
  apply eq_IZR.
  rewrite !mult_IZR, plus_IZR, <- !pow_IZR.
  replace 4 with (2 * 2) by lra. rewrite Rpow_mult_distr.
  assert (E : 1 + (2 - 1) * IZR m / 2 ^ j = (2 ^ j + IZR m) / 2 ^ j)
    by (field; assumption).
  rewrite E in Hx.
  assert (Hx' : (2 ^ j + IZR m) * (2 ^ j + IZR m) = 3 * (2 ^ j * 2 ^ j)).
  { apply Rmult_eq_reg_r with (r := / (2 ^ j * 2 ^ j)).
    - transitivity ((2 ^ j + IZR m) / 2 ^ j * ((2 ^ j + IZR m) / 2 ^ j));
        [field; assumption|].
      transitivity 3; [lra | field; assumption].
    - apply Rinv_neq_0_compat. now apply Rmult_integral_contrapositive_currified. }
  exact Hx'.
Qed.

Lemma func_R_no_zero_hit (k : nat) : no_zero_hit func_R 1 2 k.
Proof.
  intros j _.
  destruct (@midpoint_on_grid func_R 1 2 j) as (m & _ & _ & ->).
  apply func_R_no_dyadic_zero.
Qed.

Lemma func_R_root (z : R) :
  1 <= z <= 2 -> func_R z = 0 -> z = R_sqrt.sqrt 3.
Proof.
  unfold func_R; intros Hz Hf.
  assert (H3 : R_sqrt.sqrt 3 * R_sqrt.sqrt 3 = 3) by (apply sqrt_sqrt; lra).
  assert (Hpos : 0 <= R_sqrt.sqrt 3) by apply sqrt_pos.
  nra.
Qed.

(** [func2] is nowhere positive on [[0,1]]. *)
Lemma func2_R_nonpositive (x : R) : 0 <= x <= 1 -> func2_R x <= 0.
Proof.
  intros Hx; unfold func2_R.
  replace (x ^ 4 - 3 * x ^ 3 + 2 * x ^ 2 - 3 * x)
    with (x * (x * x * (x - 1) + 2 * (x - 1) - 1 - 2 * (x * x))) by ring.
  assert (0 <= x * x) by nra.
  assert (x * x * (x - 1) <= 0) by nra.
  nra.
Qed.

Lemma func2_R_no_sign_change : no_sign_change func2_R (Rmin 0 1) (Rmax 0 1).
Proof.
  rewrite Rmin_left, Rmax_right by lra.
  intros x y Hx Hy.
  pose proof (func2_R_nonpositive Hx). pose proof (func2_R_nonpositive Hy).
  nra.
Qed.

Lemma func2_R_first_pass :
  state_after func2_R (-1) 1 1 =
  {| loc_a := 0; loc_b := 1; loc_h := Some 0 |}.
Proof.
  rewrite state_after_S, state_after_0.
  apply step_else; [rewrite midpoint_R | unfold func2_R]; cbn; lra.
Qed.

End NotebookCalls.

Module Calls.
Section Properties.
Import Notebook Callers.
Local Open Scope R_scope.

(** X9: the notebook's call [bisection(func, 1, 2, n)], in exact
    arithmetic: for every budget [n >= 1] it returns a value within
    [1 / 2^n] of the square root of three.  No midpoint is ever an exact
    zero, the root being irrational. *)
Theorem func_call_converges_to_sqrt3 (n : Z) :
  (1 <= n)%Z ->
  exists e : R,
    estimate func_R 1 2 n = Ok e /\
    Rabs (e - R_sqrt.sqrt 3) <= 1 / 2 ^ Z.to_nat n.
Proof.
  intros Hn.
  destruct (@estimate_near_a_root func_R 1 2 n)
    as (z & Hz & HFz & e & He & Herr).
  - apply continuity_continuous_on, func_R_continuity.
  - lra.
  - unfold func_R; lra.
  - exact Hn.
  - apply func_R_no_zero_hit.
  - exists e; split; [exact He|].
    rewrite <- (func_R_root Hz HFz).
    replace (1 / 2 ^ Z.to_nat n) with ((2 - 1) / 2 ^ Z.to_nat n) by lra.
    exact Herr.
Qed.

(** X10: the failure the notebook warns of, bracketing the root [0] of
    [func2] by [(-1, 1)]: the signs at the endpoints are opposite, the
    first midpoint is the root itself, and for every budget [n >= 1] the
    call returns [1 - 1 / 2^(n-1)], moving away from the root towards
    [b = 1]. *)
Theorem func2_call_around_zero_walks_to_one (n : Z) :
  (1 <= n)%Z ->
  func2_R (-1) * func2_R 1 < 0 /\ func2_R 0 = 0 /\
  estimate func2_R (-1) 1 n = Ok (1 - 1 / 2 ^ Z.to_nat (n - 1)).
Proof.
  intros Hn.
  split; [unfold func2_R; lra|]. split; [unfold func2_R; lra|].
  rewrite estimate_pos by assumption. f_equal.
  destruct (Z.to_nat (n - 1)) as [|j].
  - rewrite state_after_0, midpoint_R; cbn; lra.
  - assert (Hs : state_after func2_R (-1) 1 (S j) =
                 run_from func2_R j (state_after func2_R (-1) 1 1)).
    { unfold state_after. now rewrite !run_from_S, run_from_0. }
    rewrite Hs, func2_R_first_pass, midpoint_R.
    destruct (run_from_endpoints func2_R j
                {| loc_a := 0; loc_b := 1; loc_h := Some 0 |}) as [-> ->].
    cbn [loc_a loc_b].
    destruct (@run_no_sign_change func2_R 0 1 j func2_R_no_sign_change)
      as [-> ->].
    cbn [pow]. field. apply pow_nonzero; lra.
Qed.

End Properties.
End Calls.

(** ** The Planck function and its derivative *)

Section PlanckFacts.
Import Callers.
Local Open Scope R_scope.
Variables h c k : R.
Hypothesis h_nonzero : h <> 0.
Hypothesis c_nonzero : c <> 0.
Hypothesis k_nonzero : k <> 0.

Lemma exp_minus_1_nonzero (x : R) : x <> 0 -> exp x - 1 <> 0.
Proof.
  intros Hx He. apply Hx, exp_inv. rewrite exp_0. lra.
Qed.

Lemma planck_exponent_nonzero (l T : R) :
  l <> 0 -> T <> 0 -> h * c / (l * k * T) <> 0.
Proof.
  intros Hl HT. unfold Rdiv.
  apply Rmult_integral_contrapositive_currified.
  - now apply Rmult_integral_contrapositive_currified.
  - apply Rinv_neq_0_compat.
    repeat apply Rmult_integral_contrapositive_currified; assumption.
Qed.

Lemma planck_exponent_comm (l T : R) :
  l <> 0 -> T <> 0 -> c * h / (T * k * l) = h * c / (l * k * T).
Proof. intros Hl HT. now field. Qed.

(** [planckdiff] is the derivative of [planck] in its first argument. *)
Lemma planck_derivative (l T : R) :
  l <> 0 -> T <> 0 ->
  derivable_pt_lim (fun lam => planck h c k lam T) l (planckdiff h c k l T).
Proof.
  intros Hl HT.
  pose proof (planck_exponent_nonzero Hl HT) as Hx.
  pose proof (exp_minus_1_nonzero Hx) as HE.
  assert (Hl5 : l ^ 5 <> 0) by now apply pow_nonzero.
  assert (Hlk : l * k * T <> 0)
    by (repeat apply Rmult_integral_contrapositive_currified; assumption).
  pose proof (derivable_pt_lim_div _ _ _ _ _
    (derivable_pt_lim_const (2 * h * c * c) l)
    (derivable_pt_lim_pow l 5) Hl5) as Hnumer.
  pose proof (derivable_pt_lim_mult _ _ _ _ _
    (derivable_pt_lim_mult _ _ _ _ _
       (derivable_pt_lim_id l) (derivable_pt_lim_const k l))
    (derivable_pt_lim_const T l)) as Hlin.
  pose proof (derivable_pt_lim_div _ _ _ _ _
    (derivable_pt_lim_const (h * c) l) Hlin Hlk) as Harg.
  pose proof (derivable_pt_lim_comp _ _ _ _ _ Harg
    (derivable_pt_lim_exp _)) as Hexp.
  pose proof (derivable_pt_lim_minus _ _ _ _ _ Hexp
    (derivable_pt_lim_const 1 l)) as Hdenom.
  pose proof (derivable_pt_lim_div _ _ _ _ _ Hnumer Hdenom HE) as H.
  match type of H with
  | derivable_pt_lim _ _ ?L =>
      replace (planckdiff h c k l T) with L; [exact H|]
  end.
  unfold planckdiff.
  rewrite (planck_exponent_comm Hl HT).
  unfold Rsqr, fct_cte, id, mult_fct, div_fct, minus_fct, comp.
  change (INR 5) with (1 + 1 + 1 + 1 + 1).
  cbn [Init.Nat.pred].
  set (E := exp (h * c / (l * k * T))) in *.
  field. repeat split; assumption.
Qed.

End PlanckFacts.

Module Radiation.
Section Properties.
Import Callers.
Local Open Scope R_scope.
Variables h c k : R.

(** X11: in exact arithmetic and for non-zero constants, the expression
    pasted into [planckdiff] is the derivative of [planck] with respect
    to the wavelength, at every non-zero wavelength and temperature. *)
Theorem planckdiff_is_derivative (l T : R) :
  h <> 0 -> c <> 0 -> k <> 0 -> l <> 0 -> T <> 0 ->
  derivable_pt_lim (fun lam => planck h c k lam T) l (planckdiff h c k l T).
Proof.
  intros Hh Hc Hk Hl HT. now apply planck_derivative.
Qed.

(** X12: [planckdiff2], written out a second time with the global
    [T = 5800], agrees with [planckdiff] at that temperature, so it is the
    derivative of [planck(., 5800)] and its zeros are the stationary points
    of the radiance. *)
Theorem planckdiff2_is_derivative_at_5800 (l : R) :
  h <> 0 -> c <> 0 -> k <> 0 -> l <> 0 ->
  planckdiff2 h c k l = planckdiff h c k l 5800 /\
  derivable_pt_lim (fun lam => planck h c k lam 5800) l
    (planckdiff2 h c k l).
Proof.
  intros Hh Hc Hk Hl. split; [reflexivity|].
  apply planck_derivative; try assumption. lra.
Qed.

(** X13: for positive constants, wavelength and temperature, none of
    the three divisions in [planck] is by zero and the radiance is
    positive. *)
Theorem planck_positive (lam T : R) :
  0 < h -> 0 < c -> 0 < k -> 0 < lam -> 0 < T ->
  lam ^ 5 <> 0 /\ lam * k * T <> 0 /\
  exp (h * c / (lam * k * T)) - 1 <> 0 /\
  0 < planck h c k lam T.
Proof.
  intros Hh Hc Hk Hl HT.
  assert (Hl5 : 0 < lam ^ 5) by now apply pow_lt.
  assert (Hlk : 0 < lam * k * T)
    by (repeat apply Rmult_lt_0_compat; assumption).
  assert (Hx : 0 < h * c / (lam * k * T)).
  { apply Rdiv_lt_0_compat; [|assumption].
    apply Rmult_lt_0_compat; assumption. }
  pose proof (exp_ineq1 _ (Rgt_not_eq _ _ Hx)) as HE.
  split; [lra|]. split; [lra|]. split; [lra|].
  unfold planck; cbv zeta.
  apply Rdiv_lt_0_compat; [|lra].
  apply Rdiv_lt_0_compat; [|assumption].
  repeat apply Rmult_lt_0_compat; assumption || lra.
Qed.

(** X14: for non-zero arguments [planckdiff(l, T)] is zero exactly when
    [x = c*h / (T*k*l)] solves [x * exp(x) = 5 * (exp(x) - 1)]: the
    condition depends on [l] and [T] only through their product. *)
Theorem planckdiff_zero_condition (l T : R) :
  h <> 0 -> c <> 0 -> k <> 0 -> l <> 0 -> T <> 0 ->
  let x := c * h / (T * k * l) in
  planckdiff h c k l T = 0 <-> x * exp x = 5 * (exp x - 1).
Proof.
  intros Hh Hc Hk Hl HT x.
  assert (Hx : x <> 0).
  { unfold x. rewrite (planck_exponent_comm h c Hk Hl HT).
    now apply planck_exponent_nonzero. }
  pose proof (exp_minus_1_nonzero Hx) as HE.
  assert (Hfactor : planckdiff h c k l T =
    2 * c ^ 2 * h / (l ^ 6 * (exp x - 1) ^ 2)
    * (x * exp x - 5 * (exp x - 1))).
  { unfold planckdiff. fold x.
    set (E := exp x) in *. unfold x. field. repeat split; assumption. }
  assert (Hpre : 2 * c ^ 2 * h / (l ^ 6 * (exp x - 1) ^ 2) <> 0).
  { unfold Rdiv. apply Rmult_integral_contrapositive_currified.
    - repeat apply Rmult_integral_contrapositive_currified;
        try assumption; try lra; try (now apply pow_nonzero).
    - apply Rinv_neq_0_compat.
      apply Rmult_integral_contrapositive_currified;
        now apply pow_nonzero. }
  rewrite Hfactor. split; intros H0.
  - apply Rmult_integral in H0. destruct H0 as [H0 | H0]; [tauto | lra].
  - replace (x * exp x - 5 * (exp x - 1)) with 0 by lra. ring.
Qed.

(** X15: for non-zero arguments, stretching the wavelength by [s] while
    dividing the temperature by [s] divides [planckdiff] by [s^6]; its
    zeros therefore move in inverse proportion to the temperature. *)
Theorem planckdiff_scaling (l T s : R) :
  h <> 0 -> c <> 0 -> k <> 0 -> l <> 0 -> T <> 0 -> s <> 0 ->
  planckdiff h c k (l * s) (T / s) = planckdiff h c k l T / s ^ 6.
Proof.
  intros Hh Hc Hk Hl HT Hs. unfold planckdiff.
  replace (c * h / (T / s * k * (l * s))) with (c * h / (T * k * l))
    by (field; repeat split; assumption).
  assert (HE : exp (c * h / (T * k * l)) - 1 <> 0).
  { apply exp_minus_1_nonzero.
    rewrite (planck_exponent_comm h c Hk Hl HT).
    now apply planck_exponent_nonzero. }
  set (E := exp (c * h / (T * k * l))) in *.
  field. repeat split; assumption.
Qed.

End Properties.
End Radiation.

(** ** The sign test on binary64 *)

Section FloatSignTest.

Lemma SFcompare_refl_not_nan (x : spec_float) :
  x <> S754_nan -> SFcompare x x = Some Eq.
Proof.
  destruct x as [s | s | | s m e]; intros Hx; try congruence.
  - destruct s; reflexivity.
  - destruct s; reflexivity.
  - cbn. rewrite Z.compare_refl, Pos.compare_cont_refl.
    destruct s; reflexivity.
Qed.

Lemma is_nan_Prim2SF (x : float) :
  is_nan x = true -> Prim2SF x = S754_nan.
Proof.
  unfold is_nan. rewrite eqb_spec. unfold SFeqb.
  destruct (Prim2SF x) as [s | s | | s m e] eqn:E; try reflexivity;
    rewrite SFcompare_refl_not_nan by discriminate; discriminate.
Qed.

Lemma is_zero_Prim2SF (x : float) :
  is_zero x = true -> exists s : bool, Prim2SF x = S754_zero s.
Proof.
  unfold is_zero. rewrite eqb_spec. unfold SFeqb.
  change (Prim2SF zero) with (S754_zero false).
  destruct (Prim2SF x) as [s | s | | s m e]; cbn.
  - intros _; now exists s.
  - destruct s; discriminate.
  - discriminate.
  - destruct s; discriminate.
Qed.

(** A product with a NaN factor is not below zero. *)
Lemma nan_product_not_negative (x y : float) :
  is_nan x = true \/ is_nan y = true -> (x * y <? 0)%float = false.
Proof.
  intros Hnan. rewrite ltb_spec, mul_spec.
  change (Prim2SF 0) with (S754_zero false).
  destruct Hnan as [Hx | Hy].
  - rewrite (@is_nan_Prim2SF x Hx). reflexivity.
  - rewrite (@is_nan_Prim2SF y Hy).
    destruct (Prim2SF x); reflexivity.
Qed.

(** A product with a zero factor is not below zero, whatever the other
    factor: a finite one gives a zero, an infinite one or a NaN gives a
    NaN. *)
Lemma zero_product_not_negative (x y : float) :
  is_zero x = true \/ is_zero y = true -> (x * y <? 0)%float = false.
Proof.
  intros Hzero. rewrite ltb_spec, mul_spec.
  change (Prim2SF 0) with (S754_zero false).
  destruct Hzero as [Hx | Hy].
  - destruct (@is_zero_Prim2SF x Hx) as [s ->].
    destruct (Prim2SF y); reflexivity.
  - destruct (@is_zero_Prim2SF y Hy) as [s ->].
    destruct (Prim2SF x); reflexivity.
Qed.

End FloatSignTest.

Module Binary64.
Section Properties.
Variable F : float -> float.

(** X16: on binary64, when [F(a)] or [F(h)] is NaN the test
    [F(a)*F(h) < 0] is false and the pass takes the [else] branch: a NaN
    from [F] is not reported, the interval moves to [(h, b)]. *)
Theorem nan_takes_else_branch (s : locals float) :
  is_nan (F (loc_a s)) = true \/ is_nan (F (midpoint s)) = true ->
  step F s = {| loc_a := midpoint s; loc_b := loc_b s;
                loc_h := Some (midpoint s) |}.
Proof.
  intros Hnan. rewrite step_unfold.
  change (nneg (nmul ?x ?y)) with (x * y <? 0)%float.
  now rewrite nan_product_not_negative.
Qed.

(** X17: on binary64, when [F(h)] is [0.0] or [-0.0] the pass takes the
    [else] branch for every value of [F(a)], infinities and NaN
    included; the same holds when [F(a)] is a zero. *)
Theorem zero_takes_else_branch (s : locals float) :
  is_zero (F (loc_a s)) = true \/ is_zero (F (midpoint s)) = true ->
  step F s = {| loc_a := midpoint s; loc_b := loc_b s;
                loc_h := Some (midpoint s) |}.
Proof.
  intros Hzero. rewrite step_unfold.
  change (nneg (nmul ?x ?y)) with (x * y <? 0)%float.
  now rewrite zero_product_not_negative.
Qed.

End Properties.
End Binary64.

(** ** Repeated evaluation points and nested intervals *)

Section RepeatedPoints.
Context {num : Type} `{Number num}.
Variable F : num -> num.

(** Where the two calls of pass [j + 1] sit in the log. *)
Lemma evals_from_nth (k j : nat) (s : locals num) :
  (j < k)%nat ->
  nth_error (evals_from F k s) (2 * j) = Some (loc_a (run_from F j s)) /\
  nth_error (evals_from F k s) (2 * j + 1)
    = Some (midpoint (run_from F j s)).
Proof.
  revert j s; induction k as [|k IH]; intros j s Hj; [lia|].
  rewrite evals_from_S. destruct j as [|j].
  - split; reflexivity.
  - replace (2 * S j)%nat with (S (S (2 * j))) by lia.
    replace (S (S (2 * j)) + 1)%nat with (S (S (2 * j + 1))) by lia.
    cbn [nth_error]. rewrite run_from_S. apply IH. lia.
Qed.

Lemma step_a_repeats (s : locals num) :
  loc_a (step F s) = loc_a s \/ loc_a (step F s) = midpoint s.
Proof.
  rewrite step_unfold; destruct (nneg _); cbn; [now left | now right].
Qed.

End RepeatedPoints.

Section Nesting.
Local Open Scope R_scope.
Variable F : R -> R.

Lemma step_nested (s : locals R) :
  loc_a s < loc_b s ->
  loc_a s <= loc_a (step F s) /\
  loc_a (step F s) < loc_b (step F s) /\
  loc_b (step F s) <= loc_b s.
Proof.
  intros Hlt.
  destruct (step_cases F s) as [[_ ->] | [_ ->]]; cbn [loc_a loc_b];
    rewrite midpoint_R; lra.
Qed.

Lemma run_ordered (a b : R) (k : nat) :
  a < b -> loc_a (state_after F a b k) < loc_b (state_after F a b k).
Proof.
  intros Hlt; induction k as [|k IH].
  - exact Hlt.
  - rewrite state_after_S. now apply step_nested.
Qed.

End Nesting.

Module Shape.
Section Properties.
Context {num : Type} `{Number num}.
Variable F : num -> num.

(** X18: at every carrier, the point at which a pass after the first
    calls [F(a)] was already evaluated in the pass before, as its [a] or
    as its [h]: position [2(k+1)] of the log repeats position [2k] or
    [2k+1]. *)
Theorem a_was_evaluated_before (a b : num) (n : Z) (k : nat) :
  (Z.of_nat (S k) < n)%Z ->
  exists x : num,
    nth_error (evaluations F a b n) (2 * S k) = Some x /\
    (nth_error (evaluations F a b n) (2 * k) = Some x \/
     nth_error (evaluations F a b n) (2 * k + 1) = Some x).
Proof.
  intros Hk. rewrite evaluations_unfold.
  destruct (@evals_from_nth _ _ F (Z.to_nat n) (S k) (entry a b))
    as [Ha _]; [lia|].
  destruct (@evals_from_nth _ _ F (Z.to_nat n) k (entry a b))
    as [Ha' Hh']; [lia|].
  exists (loc_a (run_from F (S k) (entry a b))).
  split; [exact Ha|].
  rewrite Ha', Hh', run_from_last.
  destruct (step_a_repeats F (run_from F k (entry a b))) as [-> | ->];
    [now left | now right].
Qed.

End Properties.

Section RealProperties.
Local Open Scope R_scope.
Variable F : R -> R.

(** X19: started with [a < b], every pass keeps the interval ordered and
    inside the one before: [a_k <= a_(k+1) < b_(k+1) <= b_k], whatever
    [F] is. *)
Theorem intervals_are_nested (a b : R) (k : nat) :
  a < b ->
  loc_a (state_after F a b k) <= loc_a (state_after F a b (S k)) /\
  loc_a (state_after F a b (S k)) < loc_b (state_after F a b (S k)) /\
  loc_b (state_after F a b (S k)) <= loc_b (state_after F a b k).
Proof.
  intros Hlt. rewrite state_after_S.
  apply step_nested. now apply run_ordered.
Qed.

End RealProperties.
End Shape.

(** ** The further properties on concrete inputs *)

Section MoreInstances.
Import Probe ProbeRuns Notebook Callers.
Local Open Scope R_scope.

Lemma no_sign_change_walks_to_b_witness :
  estimate one 0 1 2 = Ok (1 - (1 - 0) / 2 ^ Z.to_nat 2).
Proof.
  apply (@More.no_sign_change_walks_to_b one 0 1 2); [lia|].
  intros x y _ _; unfold one; lra.
Defined.

Lemma estimate_on_dyadic_grid_witness :
  exists m : Z, Z.odd m = true /\ (0 < m < 2 ^ 3)%Z /\
    estimate identity (-1) 2 3
    = Ok (-1 + (2 - -1) * IZR m / 2 ^ Z.to_nat 3).
Proof.
  apply (@More.estimate_on_dyadic_grid identity (-1) 2 3). lia.
Defined.

Lemma one_more_pass_moves_by_half_witness :
  exists e e' : R,
    estimate identity (-1) 2 3 = Ok e /\
    estimate identity (-1) 2 (3 + 1) = Ok e' /\
    Rabs (e' - e) = Rabs (2 - -1) / 2 ^ Z.to_nat (3 + 1).
Proof.
  apply (@More.one_more_pass_moves_by_half identity (-1) 2 3). lia.
Defined.

Lemma estimate_near_some_root_witness :
  exists z e : R,
    -1 <= z <= 2 /\ identity z = 0 /\
    estimate identity (-1) 2 3 = Ok e /\
    Rabs (e - z) <= (2 - -1) / 2 ^ Z.to_nat 3.
Proof.
  apply (@More.estimate_near_some_root identity (-1) 2 3).
  - apply identity_continuous.
  - lra.
  - unfold identity; lra.
  - lia.
  - intros j Hj. apply identity_skewed_no_zero_hit.
    change (Z.to_nat (3 - 2)) with 1%nat in Hj. lia.
Defined.

Lemma result_depends_on_sign_changes_witness :
  estimate (fun x => x + x) (-1) 2 3 = estimate identity (-1) 2 3 /\
  evaluations (fun x => x + x) (-1) 2 3 = evaluations identity (-1) 2 3.
Proof.
  apply (@More.result_depends_on_sign_changes
           identity (fun x => x + x) (-1) 2 3).
  intros x y _ _; unfold identity. split; intros Hlt; nra.
Defined.

Lemma scaling_F_changes_nothing_witness :
  estimate (fun x => -2 * identity x) (-1) 2 3 = estimate identity (-1) 2 3.
Proof.
  apply (@More.scaling_F_changes_nothing identity (-2) (-1) 2 3). lra.
Defined.

Lemma change_of_variable_witness :
  estimate (fun y => identity ((y - 1) / 2)) (2 * -1 + 1) (2 * 2 + 1) 3
  = result_map (fun x => 2 * x + 1) (estimate identity (-1) 2 3).
Proof.
  apply (@More.change_of_variable identity 2 1 (-1) 2 3). lra.
Defined.

Lemma func_call_converges_to_sqrt3_witness :
  exists e : R,
    estimate func_R 1 2 25 = Ok e /\
    Rabs (e - R_sqrt.sqrt 3) <= 1 / 2 ^ Z.to_nat 25.
Proof.
  apply (@Calls.func_call_converges_to_sqrt3 25%Z). lia.
Defined.

Lemma func2_call_around_zero_walks_to_one_witness :
  estimate func2_R (-1) 1 40 = Ok (1 - 1 / 2 ^ Z.to_nat (40 - 1)).
Proof.
  apply (@Calls.func2_call_around_zero_walks_to_one 40%Z). lia.
Defined.

Lemma planckdiff_is_derivative_witness :
  derivable_pt_lim (fun lam => planck 1 1 1 lam 1) 1 (planckdiff 1 1 1 1 1).
Proof.
  apply (@Radiation.planckdiff_is_derivative 1 1 1 1 1); lra.
Defined.

Lemma planckdiff2_is_derivative_at_5800_witness :
  derivable_pt_lim (fun lam => planck 1 1 1 lam 5800) 1
    (planckdiff2 1 1 1 1).
Proof.
  apply (@Radiation.planckdiff2_is_derivative_at_5800 1 1 1 1); lra.
Defined.

Lemma planck_positive_witness : 0 < planck 1 1 1 1 1.
Proof.
  apply (@Radiation.planck_positive 1 1 1 1 1); lra.
Defined.

Lemma planckdiff_zero_condition_witness :
  planckdiff 1 1 1 1 1 = 0 <->
  1 * 1 / (1 * 1 * 1) * exp (1 * 1 / (1 * 1 * 1))
  = 5 * (exp (1 * 1 / (1 * 1 * 1)) - 1).
Proof.
  apply (@Radiation.planckdiff_zero_condition 1 1 1 1 1); lra.
Defined.

Lemma planckdiff_scaling_witness :
  planckdiff 1 1 1 (1 * 2) (1 / 2) = planckdiff 1 1 1 1 1 / 2 ^ 6.
Proof.
  apply (@Radiation.planckdiff_scaling 1 1 1 1 1 2); lra.
Defined.

Lemma nan_takes_else_branch_witness :
  step (fun _ : float => nan) (entry 1%float 2%float)
  = {| loc_a := 1.5%float; loc_b := 2%float; loc_h := Some 1.5%float |}.
Proof.
  apply (@Binary64.nan_takes_else_branch
           (fun _ => nan) (entry 1%float 2%float)).
  left; reflexivity.
Defined.

Lemma zero_takes_else_branch_witness :
  step (fun x : float => x) (entry (-1)%float 1%float)
  = {| loc_a := 0%float; loc_b := 1%float; loc_h := Some 0%float |}.
Proof.
  apply (@Binary64.zero_takes_else_branch
           (fun x => x) (entry (-1)%float 1%float)).
  right; reflexivity.
Defined.

Lemma a_was_evaluated_before_witness :
  exists x : Q,
    nth_error (evaluations func_Q 1%Q 2%Q 3) (2 * 2) = Some x /\
    (nth_error (evaluations func_Q 1%Q 2%Q 3) (2 * 1) = Some x \/
     nth_error (evaluations func_Q 1%Q 2%Q 3) (2 * 1 + 1) = Some x).
Proof.
  apply (@Shape.a_was_evaluated_before Q _ func_Q 1%Q 2%Q 3 1).
  vm_compute; reflexivity.
Defined.

Lemma intervals_are_nested_witness :
  loc_a (state_after identity (-1) 2 1)
    <= loc_a (state_after identity (-1) 2 2) /\
  loc_a (state_after identity (-1) 2 2)
    < loc_b (state_after identity (-1) 2 2) /\
  loc_b (state_after identity (-1) 2 2)
    <= loc_b (state_after identity (-1) 2 1).
Proof.
  apply (@Shape.intervals_are_nested identity (-1) 2 1). lra.
Defined.

End MoreInstances.

(** ** Where binary64 departs from exact arithmetic *)

Section FloatDepartures.
Import Probe ProbeRuns Notebook.
Local Open Scope R_scope.

Lemma sqrt3_single_root : single_root func_R 1 2 (R_sqrt.sqrt 3).
Proof.
  assert (H3 : R_sqrt.sqrt 3 * R_sqrt.sqrt 3 = 3) by (apply sqrt_sqrt; lra).
  assert (Hpos : 0 <= R_sqrt.sqrt 3) by apply sqrt_pos.
  split; [nra|]. split; [unfold func_R; lra|].
  intros x Hx Hf. now apply func_R_root.
Qed.

(** The float [0x1.bb67ae8584caap+0] is [7800463371553962 / 2^52]. *)
Lemma float_below_sqrt3_value :
  float_to_R 0x1.bb67ae8584caap+0 = Some (7800463371553962 / 2 ^ 52).
Proof.
  unfold float_to_R.
  replace (Prim2SF 0x1.bb67ae8584caap+0)
    with (S754_finite false 7800463371553962 (-52))
    by (vm_compute; reflexivity).
  f_equal. cbn [powerRZ].
  change (Pos.to_nat 52) with 52%nat.
  unfold Rdiv. ring.
Qed.

(** It lies below the square root of three by more than [2^-54]. *)
Lemma float_below_sqrt3_gap :
  ~ Rabs (7800463371553962 / 2 ^ 52 - R_sqrt.sqrt 3)
    <= (2 - 1) / 2 ^ Z.to_nat 54.
Proof.
  assert (H3 : R_sqrt.sqrt 3 * R_sqrt.sqrt 3 = 3) by (apply sqrt_sqrt; lra).
  assert (Hpos : 0 <= R_sqrt.sqrt 3) by apply sqrt_pos.
  change (Z.to_nat 54) with 54%nat.
  assert (E52 : 2 ^ 52 = 4503599627370496) by ring.
  assert (E54 : 2 ^ 54 = 18014398509481984) by ring.
  rewrite E52, E54.
  set (t := 7800463371553962 / 4503599627370496 + 1 / 18014398509481984).
  assert (Ht : 0 < t) by (unfold t; lra).
  assert (Htt : t * t < 3) by (unfold t; lra).
  assert (Hlt : t < R_sqrt.sqrt 3) by nra.
  intros Habs. unfold t in Hlt.
  revert Habs. unfold Rabs. destruct (Rcase_abs _); lra.
Qed.

(** C1 as stated fails, on two counts.  In exact arithmetic, after an
    exact zero at a midpoint: [identity] on [(-1, 1)] with three passes
    returns [3/4], bound [1/4].  On binary64, with no zero at any point
    evaluated: for [lambda x: x*x - 3], which computes a continuous
    function with the single root [sqrt 3] in [[1,2]] and opposite signs
    at the endpoints, 54 passes over [(1, 2)] return
    [7800463371553962 / 2^52], more than [(2 - 1) / 2^54] away from the
    root. *)
Lemma convergence_fails :
  (continuous_on identity (-1) 1 /\
   single_root identity (-1) 1 0 /\
   (1 <= 3)%Z /\
   identity (-1) * identity 1 < 0 /\
   estimate identity (-1) 1 3 = Ok (3 / 4) /\
   ~ Rabs (3 / 4 - 0) <= (1 - -1) / 2 ^ Z.to_nat 3) /\
  (continuous_on func_R 1 2 /\
   single_root func_R 1 2 (R_sqrt.sqrt 3) /\
   (1 <= 54)%Z /\
   func_R 1 * func_R 2 < 0 /\
   (square_minus_three 1 <? 0)%float = true /\
   (0 <? square_minus_three 2)%float = true /\
   forallb (fun x => negb (is_zero (square_minus_three x)))
     (evaluations square_minus_three 1%float 2%float 54) = true /\
   estimate square_minus_three 1%float 2%float 54
     = Ok 0x1.bb67ae8584caap+0%float /\
   float_to_R 0x1.bb67ae8584caap+0 = Some (7800463371553962 / 2 ^ 52) /\
   ~ Rabs (7800463371553962 / 2 ^ 52 - R_sqrt.sqrt 3)
     <= (2 - 1) / 2 ^ Z.to_nat 54).
Proof.
  split; [exact convergence_fails_after_exact_zero|].
  split; [apply continuity_continuous_on, func_R_continuity|].
  split; [exact sqrt3_single_root|].
  split; [lia|].
  split; [unfold func_R; lra|].
  split; [vm_compute; reflexivity|].
  split; [vm_compute; reflexivity|].
  split; [vm_compute; reflexivity|].
  split; [vm_compute; reflexivity|].
  split; [exact float_below_sqrt3_value | exact float_below_sqrt3_gap].
Qed.

(** C4 as stated fails on binary64: for [lambda x: x * 2.0**-600] on
    [(-1, 2)] the values at the endpoints have strictly opposite signs
    and the value at the midpoint [0.5] is not zero, but the product
    [F(a)*F(h)] underflows to [-0.0], which is not below zero; the
    [else] branch is taken and the new endpoints [0.5] and [2] both have
    positive values. *)
Lemma bracket_is_lost_on_underflow :
  (tiny_slope (-1) <? 0)%float = true /\
  (0 <? tiny_slope 2)%float = true /\
  midpoint (entry (-1)%float 2%float) = 0.5%float /\
  is_zero (tiny_slope 0.5) = false /\
  is_zero (tiny_slope (-1) * tiny_slope 0.5) = true /\
  state_after tiny_slope (-1)%float 2%float 1
    = {| loc_a := 0.5%float; loc_b := 2%float; loc_h := Some 0.5%float |} /\
  (0 <? tiny_slope 0.5)%float = true /\
  (0 <? tiny_slope 2)%float = true.
Proof. vm_compute. repeat split. Qed.

(** C7 as stated fails, on three counts.  In exact arithmetic, without a
    sign change ([one]) and with an exact zero at the first midpoint
    ([identity]).  On binary64, with a sign change and no zero at the
    midpoint: for [lambda x: x * 2.0**-600] both products underflow to a
    zero, both calls take the [else] branch, and two passes return
    [1.25] from [(-1, 2)] and [-0.25] from [(2, -1)]. *)
Lemma endpoints_exchange_fails :
  ((1 <= 2)%Z /\
   (estimate one 0 1 2 = Ok (3 / 4) /\
    estimate one 1 0 2 = Ok (1 / 4) /\
    estimate one 0 1 2 <> estimate one 1 0 2) /\
   (identity (-1) * identity 1 < 0 /\
    estimate identity (-1) 1 2 = Ok (1 / 2) /\
    estimate identity 1 (-1) 2 = Ok (-1 / 2) /\
    estimate identity (-1) 1 2 <> estimate identity 1 (-1) 2)) /\
  ((tiny_slope (-1) <? 0)%float = true /\
   (0 <? tiny_slope 2)%float = true /\
   midpoint (state_after tiny_slope (-1)%float 2%float 0) = 0.5%float /\
   midpoint (state_after tiny_slope 2%float (-1)%float 0) = 0.5%float /\
   is_zero (tiny_slope 0.5) = false /\
   estimate tiny_slope (-1)%float 2%float 2 = Ok 1.25%float /\
   estimate tiny_slope 2%float (-1)%float 2 = Ok (-0.25)%float /\
   (1.25 =? -0.25)%float = false /\
   estimate tiny_slope (-1)%float 2%float 2
     <> estimate tiny_slope 2%float (-1)%float 2).
Proof.
  split; [exact endpoints_are_not_symmetric|].
  repeat (split; [vm_compute; reflexivity|]).
  intros E.
  assert (H : match estimate tiny_slope (-1)%float 2%float 2 with
              | Ok v => (v <? 0)%float
              | Raise _ => false
              end
              = match estimate tiny_slope 2%float (-1)%float 2 with
                | Ok v => (v <? 0)%float
                | Raise _ => false
                end) by (rewrite E; reflexivity).
  vm_compute in H. discriminate.
Qed.

(** C10 as stated fails on binary64: with [a == b == 2.0**1023] the sum
    [a + b] overflows, the midpoint is [inf], one pass moves [a] to
    [inf] and the call returns [inf], not [a]. *)
Lemma degenerate_bracket_overflows :
  (0x1p1023 =? 0x1p1023)%float = true /\
  (1 <= 1)%Z /\
  midpoint (entry 0x1p1023%float 0x1p1023%float) = infinity /\
  loc_a (state_after identity_float 0x1p1023%float 0x1p1023%float 1)
    = infinity /\
  estimate identity_float 0x1p1023%float 0x1p1023%float 1 = Ok infinity /\
  (infinity =? 0x1p1023)%float = false.
Proof. vm_compute. repeat split. discriminate. Qed.

End FloatDepartures.
